(** * GridMap: the square-tile grid backend of the path finder (sample/grid_map.h)

    A shallow embedding of the class template [GridMap<CostType>] and of the
    collaborators it is built from, followed by the properties of the
    specification that concern it.

    Conventions of the embedding.
    - [int] is a 32-bit two's complement integer, kept as a [Z] with the
      wrap-around of each operation written out ([wrap]).
    - The template parameter [CostType] is the type class [CostType]; the two
      instantiations the class comment names ([int] and [double]) are the
      instances [int_cost] and [double_cost], the latter on the kernel's
      binary64 numbers.
    - A [GridNode*] always points into the node array, whose record for the
      coordinate [c] carries [c_ = c]; a pointer is represented by the
      coordinate of its target ([None] for the null pointer) and [p->c_] is
      that coordinate.
    - A member function that mutates the map takes the map and returns the
      new one; a failed [assert], a read outside an array and a null
      dereference are the outcome [Fails]. *)

From Stdlib Require Import ZArith QArith Lia Floats.PrimFloat Floats.FloatOps Floats.SpecFloat Uint63.
From Stdlib Require Floats.FloatAxioms.
From stdpp Require Import prelude.

Local Open Scope Z_scope.

(* 1.4143 is not a binary64 number: the literal denotes the closest one. *)
#[local] Set Warnings "-inexact-float".

(** ** Outcomes *)

Inductive outcome (A : Type) : Type :=
| Returns (a : A)
| Fails.
Arguments Returns {A} a.
Arguments Fails {A}.

#[export] Instance outcome_ret : MRet outcome := fun A a => Returns a.

#[export] Instance outcome_bind : MBind outcome := fun A B k o =>
  match o with
  | Returns a => k a
  | Fails => Fails
  end.

#[export] Instance outcome_fmap : FMap outcome := fun A B f o =>
  match o with
  | Returns a => Returns (f a)
  | Fails => Fails
  end.

Definition returned {A : Type} (o : outcome A) : bool :=
  match o with Returns _ => true | Fails => false end.

(** ** The type [int] *)

Definition wrap (z : Z) : Z := (z + 2 ^ 31) mod 2 ^ 32 - 2 ^ 31.
Arguments wrap : simpl never.

Definition int_add (a b : Z) : Z := wrap (a + b).
Definition int_sub (a b : Z) : Z := wrap (a - b).
Definition int_mul (a b : Z) : Z := wrap (a * b).
Definition int_abs (a : Z) : Z := wrap (Z.abs a).

Definition in_int (z : Z) : Prop := - 2 ^ 31 <= z < 2 ^ 31.

(** ** The type [double] and its conversions *)

(** Conversion of an [int] to [double] (exact: every [int] is a binary64
    number). *)
Definition double_of_int (z : Z) : float :=
  if z <? 0 then PrimFloat.opp (PrimFloat.of_uint63 (Uint63.of_Z (- z)))
  else PrimFloat.of_uint63 (Uint63.of_Z z).

(** Conversion of a [double] to [int]: the fractional part is discarded.
    (The conversion of a value with no integer part in range, an infinity or a
    NaN is undefined in C++; it is given the value 0 here.) *)
Definition int_of_double (d : float) : Z :=
  match Prim2SF d with
  | S754_finite s m e =>
      let v := if 0 <=? e then Z.pos m * 2 ^ e else Z.shiftr (Z.pos m) (- e) in
      wrap (if s then - v else v)
  | _ => 0
  end.

(** The exact value of a finite [double] as a fraction [num / 2 ^ k]. *)
Definition double_fraction (d : float) : option (Z * Z) :=
  match Prim2SF d with
  | S754_zero _ => Some (0, 0)
  | S754_finite s m e =>
      let n := if s then Z.neg m else Z.pos m in
      Some (if 0 <=? e then (n * 2 ^ e, 0) else (n, - e))
  | _ => None
  end.

(** ** The template parameter [CostType] *)

Class CostType (C : Type) : Type := {
  cost_add : C -> C -> C;            (* a + b *)
  cost_mul : C -> C -> C;            (* a * b *)
  cost_ltb : C -> C -> bool;         (* a < b *)
  cost_leb : C -> C -> bool;         (* a <= b *)
  cost_of_int : Z -> C;              (* static_cast<CostType>(i), i an int; also
                                        the conversion of an int operand of a
                                        mixed product *)
  cost_of_double : float -> C        (* static_cast<CostType>(d), d a double *)
}.

#[export] Instance int_cost : CostType Z := {|
  cost_add := int_add;
  cost_mul := int_mul;
  cost_ltb := Z.ltb;
  cost_leb := Z.leb;
  cost_of_int := fun z => z;
  cost_of_double := int_of_double
|}.

#[export] Instance double_cost : CostType float := {|
  cost_add := PrimFloat.add;
  cost_mul := PrimFloat.mul;
  cost_ltb := PrimFloat.ltb;
  cost_leb := PrimFloat.leb;
  cost_of_int := double_of_int;
  cost_of_double := fun d => d
|}.

(** ** Coordinates *)

Definition Coord : Type := Z * Z.

Definition x (n : Coord) : Z := n.1.
Definition y (n : Coord) : Z := n.2.

Section GridMapStatics.
Context {C : Type} `{CostType C}.

(** [kDiagonalEdgeWeight] and [kStraightEdgeWeight]. *)
Definition kDiagonalEdgeWeight : C := cost_of_double 1.4143%float.
Definition kStraightEdgeWeight : C := cost_of_double 1.0%float.

Definition manhattan_distance (n0 n1 : Coord) : C :=
  cost_of_int (int_add (int_abs (int_sub (x n1) (x n0)))
                       (int_abs (int_sub (y n1) (y n0)))).

Definition diagonal_distance (n0 n1 : Coord) : C :=
  let dx := int_abs (int_sub (x n1) (x n0)) in
  let dy := int_abs (int_sub (y n1) (y n0)) in
  let dmin := Z.min dx dy in
  let dmax := Z.max dx dy in
  cost_add (cost_mul (cost_of_int dmin) kDiagonalEdgeWeight)
           (cost_mul (cost_of_int (int_sub dmax dmin)) kStraightEdgeWeight).

Definition duclidean_distance (n0 n1 : Coord) : C :=
  let dx := int_abs (int_sub (x n1) (x n0)) in
  let dy := int_abs (int_sub (y n1) (y n0)) in
  cost_of_double
    (PrimFloat.sqrt (double_of_int (int_add (int_mul dx dx) (int_mul dy dy)))).

(** The offset tables of [coord_4_neighbors] and [coord_8_neighbors]. *)
Definition x_offsets_4 : list Z := [0; -1; 1; 0].
Definition y_offsets_4 : list Z := [-1; 0; 0; 1].
Definition x_offsets_8 : list Z := [-1; 0; 1; -1; 1; -1; 0; 1].
Definition y_offsets_8 : list Z := [-1; -1; -1; 0; 0; 1; 1; 1].

Definition offset_neighbors (xs ys : list Z) (c : Coord) : list Coord :=
  zip_with (fun ox oy => (int_add c.1 ox, int_add c.2 oy)) xs ys.

Definition coord_4_neighbors (c : Coord) : list Coord :=
  offset_neighbors x_offsets_4 y_offsets_4 c.

Definition coord_8_neighbors (c : Coord) : list Coord :=
  offset_neighbors x_offsets_8 y_offsets_8 c.

(** The distance [d] that [edge_weight] computes. *)
Definition edge_span (c0 c1 : Coord) : Z :=
  int_add (int_abs (int_sub (y c1) (y c0))) (int_abs (int_sub (x c1) (x c0))).

Definition edge_weight (c0 c1 : Coord) : outcome C :=
  let d := edge_span c0 c1 in
  if d =? 2 then Returns kDiagonalEdgeWeight
  else if d =? 1 then Returns kStraightEdgeWeight
  else Fails.

End GridMapStatics.

(** ** Node states (node_state.h) *)

(** Modelled from the spec: node_state.h is not part of the sources.  The six
    states are the ones grid_map.h names ([unexplored], [open], [closed],
    [result], [start], [goal]). *)
Module NodeState.
Inductive t : Set := unexplored | open | closed | result | start | goal.

#[export] Instance eq_dec : EqDecision t.
Proof. solve_decision. Defined.
End NodeState.
Export (hints) NodeState.

(** ** Node records and the node array (grid_node_array.h) *)

(** Modelled from the spec: grid_node_array.h is not part of the sources.
    A node record has the fields grid_map.h reads and writes; the record of a
    cell is addressed by its coordinate, so the field [c_] of the record at
    [c] is [c] itself and is not stored.  A fresh array holds an unexplored
    record with a null parent for every cell. *)
Record GridNode (C : Type) : Type := mkGridNode {
  state_ : NodeState.t;
  g_ : C;
  f_ : C;
  parent_ : option Coord
}.
Arguments mkGridNode {C}.
Arguments state_ {C}.
Arguments g_ {C}.
Arguments f_ {C}.
Arguments parent_ {C}.

Definition GridNodeArray (C : Type) : Type := Coord -> GridNode C.

(** ** Search statistics (search_stats.h) *)

(** Modelled from the spec: search_stats.h is not part of the sources.  The
    four counters are the ones grid_map.h increments; they are unbounded
    integers here. *)
Record SearchStats : Set := mkSearchStats {
  nodes_opened : Z;
  nodes_reopened : Z;
  nodes_closed : Z;
  nodes_priority_increased : Z
}.

Definition fresh_stats : SearchStats := mkSearchStats 0 0 0 0.

(** ** The vertex matrix (vertex_matrix.h) *)

(** Modelled from the spec: vertex_matrix.h is not part of the sources.  A
    fixed W x H array of terrain weights in row-major order; [weight] reads
    the weight of a cell and fails outside the grid; [is_passable] holds of
    the cells of the grid whose weight is not negative. *)
Record VertexMatrix (C : Type) : Type := mkVertexMatrix {
  vm_w : Z;
  vm_h : Z;
  vm_data : list C
}.
Arguments mkVertexMatrix {C}.
Arguments vm_w {C}.
Arguments vm_h {C}.
Arguments vm_data {C}.

Section Collaborators.
Context {C : Type} `{CostType C}.

(** Modelled from the spec: the record of a cell at construction
    (grid_node_array.h): state unexplored, no parent. *)
Definition fresh_node : GridNode C :=
  mkGridNode NodeState.unexplored (cost_of_int 0) (cost_of_int 0) None.

Definition fresh_node_array : GridNodeArray C := fun _ => fresh_node.

Definition update_node (na : GridNodeArray C) (n : Coord)
    (upd : GridNode C -> GridNode C) : GridNodeArray C :=
  fun c => if decide (c = n) then upd (na n) else na c.

Definition set_state (s : NodeState.t) (r : GridNode C) : GridNode C :=
  mkGridNode s (g_ r) (f_ r) (parent_ r).
Definition set_g (g : C) (r : GridNode C) : GridNode C :=
  mkGridNode (state_ r) g (f_ r) (parent_ r).
Definition set_f (f : C) (r : GridNode C) : GridNode C :=
  mkGridNode (state_ r) (g_ r) f (parent_ r).
Definition set_parent (p : option Coord) (r : GridNode C) : GridNode C :=
  mkGridNode (state_ r) (g_ r) (f_ r) p.

(** Modelled from the spec: the bounds [0,W) x [0,H) of vertex_matrix.h. *)
Definition in_grid (vm : VertexMatrix C) (c : Coord) : bool :=
  (0 <=? x c) && (x c <? vm_w vm) && (0 <=? y c) && (y c <? vm_h vm).

(** Modelled from the spec: [VertexMatrix::weight], the stored terrain weight,
    failing outside the grid. *)
Definition weight (vm : VertexMatrix C) (c : Coord) : outcome C :=
  if in_grid vm c then
    match vm_data vm !! Z.to_nat (y c * vm_w vm + x c) with
    | Some w => Returns w
    | None => Fails
    end
  else Fails.

(** Modelled from the spec: [VertexMatrix::is_passable], weight(c) >= 0 and c
    within the grid. *)
Definition is_passable (vm : VertexMatrix C) (c : Coord) : bool :=
  match weight vm c with
  | Returns w => cost_leb (cost_of_int 0) w
  | Fails => false
  end.

(** Modelled from the spec: the constructor of vertex_matrix.h, which fails
    when the sequence of weights has not W*H elements. *)
Definition new_VertexMatrix (w h : Z) (matrix : list C) : outcome (VertexMatrix C) :=
  if decide (0 <= w /\ 0 <= h /\ Z.of_nat (length matrix) = w * h)
  then Returns (mkVertexMatrix w h matrix)
  else Fails.

(** ** The open list (hot_queue.h, binary_heap.h) *)

(** Modelled from the spec: hot_queue.h and binary_heap.h are not part of the
    sources.  The open list is a binary min-heap kept in an array of node
    references; the priority of an element is read from the [f_] of its
    record whenever two elements are compared.  [insert] appends and sifts
    up; [remove_front] replaces the root by the last element and sifts down,
    and fails on an empty queue; [increase_priority] writes the new [f_] and
    sifts up from the position of the element, fails when the element has no
    position in the queue, and never raises a stored [f_]. *)
Section BinaryHeap.
Variable priority : Coord -> C.

(** Modelled from the spec: the comparison of two elements of the array by
    the f-costs of their records. *)
Definition precedes (h : list Coord) (i j : nat) : bool :=
  match h !! i, h !! j with
  | Some a, Some b => cost_ltb (priority a) (priority b)
  | _, _ => false
  end.

(** Modelled from the spec: the exchange of two elements of the array. *)
Definition swap (h : list Coord) (i j : nat) : list Coord :=
  match h !! i, h !! j with
  | Some a, Some b => <[i := b]> (<[j := a]> h)
  | _, _ => h
  end.

(** Modelled from the spec: the parent of position [i] in the array of a
    binary heap (the children of [i] are [2i+1] and [2i+2]). *)
Definition heap_parent (i : nat) : nat := ((i - 1) / 2)%nat.

(** Modelled from the spec: sifting up exchanges the element at [i] with its
    parent as long as it precedes it ([i] exchanges suffice). *)
Fixpoint sift_up (fuel : nat) (h : list Coord) (i : nat) : list Coord :=
  match fuel with
  | O => h
  | S fuel' =>
      if decide (i = 0%nat) then h
      else if precedes h i (heap_parent i)
           then sift_up fuel' (swap h i (heap_parent i)) (heap_parent i)
           else h
  end.

(** Modelled from the spec: sifting down exchanges the element at [i] with
    the child that precedes the other, as long as that child precedes it. *)
Fixpoint sift_down (fuel : nat) (h : list Coord) (i : nat) : list Coord :=
  match fuel with
  | O => h
  | S fuel' =>
      let l := (2 * i + 1)%nat in
      let r := (2 * i + 2)%nat in
      let s := if precedes h l i then l else i in
      let s := if precedes h r s then r else s in
      if decide (s = i) then h else sift_down fuel' (swap h i s) s
  end.

(** Modelled from the spec: [insert] of the open list appends the element
    and sifts it up. *)
Definition heap_insert (h : list Coord) (n : Coord) : list Coord :=
  sift_up (length h) (h ++ [n]) (length h).

(** Modelled from the spec: [remove_front] of the open list returns the root,
    puts the last element in its place and sifts it down; it fails on an
    empty queue. *)
Definition heap_remove_front (h : list Coord) : outcome (Coord * list Coord) :=
  match h with
  | [] => Fails
  | front :: _ =>
      let h' := swap h 0 (length h - 1) in
      let h'' := take (length h - 1) h' in
      Returns (front, sift_down (length h'') h'' 0)
  end.

End BinaryHeap.

(** Modelled from the spec: the position of an element in the array of the
    open list. *)
Definition heap_position (h : list Coord) (n : Coord) : option nat :=
  fst <$> list_find (fun c => c = n) h.

(** Modelled from the spec: [increase_priority] of the open list writes the
    new f-cost into the record and sifts the element up from its position;
    it fails for an element that has no position.  The new f-cost is to be
    at most the current one, and the operation never increases a stored
    f-cost: a call with a new f-cost that is not at most the stored one
    leaves the record and the array as they are, so that the heap order
    holds regardless. *)
Definition heap_increase_priority (na : GridNodeArray C) (h : list Coord)
    (n : Coord) (new_f : C) : outcome (GridNodeArray C * list Coord) :=
  match heap_position h n with
  | None => Fails
  | Some i =>
      if cost_leb new_f (f_ (na n)) then
        let na' := update_node na n (set_f new_f) in
        Returns (na', sift_up (fun c => f_ (na' c)) i h i)
      else Returns (na, h)
  end.

End Collaborators.

(** ** The grid map *)

(** Modelled from the spec: map.h is not part of the sources.  An edge is a
    triple (from, to, weight). *)
Record Edge (C : Type) : Type := mkEdge {
  edge_from : Coord;
  edge_to : Coord;
  edge_cost_ : C
}.
Arguments mkEdge {C}.
Arguments edge_from {C}.
Arguments edge_to {C}.
Arguments edge_cost_ {C}.

Record GridMap (C : Type) : Type := mkGridMap {
  vertex_matrix_ : VertexMatrix C;
  stats_ : SearchStats;
  node_array_ : GridNodeArray C;
  open_list_ : list Coord;
  enable_diagonal_ : bool
}.
Arguments mkGridMap {C}.
Arguments vertex_matrix_ {C}.
Arguments stats_ {C}.
Arguments node_array_ {C}.
Arguments open_list_ {C}.
Arguments enable_diagonal_ {C}.

Section GridMapMembers.
Context {C : Type} `{CostType C}.

(** The constructor [GridMap(w, h, matrix, enable_diagonal)]. *)
Definition new_GridMap (w h : Z) (matrix : list C) (enable_diagonal : bool)
    : outcome (GridMap C) :=
  vm ← new_VertexMatrix w h matrix;
  mret (mkGridMap vm fresh_stats fresh_node_array [] enable_diagonal).

Definition node (m : GridMap C) (n : Coord) : GridNode C := node_array_ m n.

(** The priority the open list reads from a node record. *)
Definition priority_of (na : GridNodeArray C) (c : Coord) : C := f_ (na c).

Definition current_cost (m : GridMap C) (n : Coord) : C := g_ (node m n).

Definition edge_cost (m : GridMap C) (n0 n1 : Coord) : outcome C :=
  w ← weight (vertex_matrix_ m) n1;
  s ← edge_weight n0 n1;
  mret (cost_mul w s).

(** The loop of [edges] over the neighbours. *)
Fixpoint edges_loop (m : GridMap C) (n : Coord) (coords : list Coord)
    (es : list (Edge C)) : outcome (list (Edge C)) :=
  match coords with
  | [] => Returns es
  | c :: coords' =>
      if is_passable (vertex_matrix_ m) c then
        w ← edge_cost m n c;
        edges_loop m n coords' (es ++ [mkEdge n c w])
      else edges_loop m n coords' es
  end.

Definition edges (m : GridMap C) (n : Coord) : outcome (list (Edge C)) :=
  let coords :=
    if enable_diagonal_ m then coord_8_neighbors n else coord_4_neighbors n in
  edges_loop m n coords [].

Definition nodes_equal (n0 n1 : Coord) : bool := bool_decide (n0 = n1).

Definition open_node_available (m : GridMap C) : bool :=
  negb (bool_decide (open_list_ m = [])).

Definition node_unexplored (m : GridMap C) (n : Coord) : bool :=
  bool_decide (state_ (node m n) = NodeState.unexplored).

Definition node_open (m : GridMap C) (n : Coord) : bool :=
  bool_decide (state_ (node m n) = NodeState.open).

Definition stats_opened (s : SearchStats) : SearchStats :=
  mkSearchStats (nodes_opened s + 1) (nodes_reopened s) (nodes_closed s)
                (nodes_priority_increased s).
Definition stats_reopened (s : SearchStats) : SearchStats :=
  mkSearchStats (nodes_opened s) (nodes_reopened s + 1) (nodes_closed s)
                (nodes_priority_increased s).
Definition stats_closed (s : SearchStats) : SearchStats :=
  mkSearchStats (nodes_opened s) (nodes_reopened s) (nodes_closed s + 1)
                (nodes_priority_increased s).
Definition stats_priority_increased (s : SearchStats) : SearchStats :=
  mkSearchStats (nodes_opened s) (nodes_reopened s) (nodes_closed s)
                (nodes_priority_increased s + 1).

Definition open_node (m : GridMap C) (n : Coord) (g h : C) (p : Coord)
    : GridMap C :=
  let na := update_node (node_array_ m) n (set_parent (Some p)) in
  let na := update_node na n (set_g g) in
  let na := update_node na n (set_f (cost_add g h)) in
  let ol := heap_insert (priority_of na) (open_list_ m) n in
  let na := update_node na n (set_state NodeState.open) in
  mkGridMap (vertex_matrix_ m) (stats_opened (stats_ m)) na ol
            (enable_diagonal_ m).

Definition reopen_node (m : GridMap C) (n : Coord) (g h : C) (p : Coord)
    : GridMap C :=
  let na := update_node (node_array_ m) n (set_parent (Some p)) in
  let na := update_node na n (set_g g) in
  let na := update_node na n (set_f (cost_add g h)) in
  let ol := heap_insert (priority_of na) (open_list_ m) n in
  let na := update_node na n (set_state NodeState.open) in
  mkGridMap (vertex_matrix_ m) (stats_reopened (stats_ m)) na ol
            (enable_diagonal_ m).

Definition close_front_open_node (m : GridMap C) : outcome (GridMap C * Coord) :=
  '(gn, ol) ← heap_remove_front (priority_of (node_array_ m)) (open_list_ m);
  let na := update_node (node_array_ m) gn (set_state NodeState.closed) in
  mret (mkGridMap (vertex_matrix_ m) (stats_closed (stats_ m)) na ol
                  (enable_diagonal_ m), gn).

Definition increase_node_priority (m : GridMap C) (n : Coord) (g h : C)
    (p : Coord) : outcome (GridMap C) :=
  let na := update_node (node_array_ m) n (set_parent (Some p)) in
  let na := update_node na n (set_g g) in
  '(na, ol) ← heap_increase_priority na (open_list_ m) n (cost_add g h);
  mret (mkGridMap (vertex_matrix_ m) (stats_priority_increased (stats_ m)) na ol
                  (enable_diagonal_ m)).

(** The loop of [get_path]: [None] when the fuel does not suffice for the
    loop to end. *)
Fixpoint get_path_loop (fuel : nat) (na : GridNodeArray C) (p : Coord)
    (path : list Coord) : option (outcome (GridNodeArray C * Coord * list Coord)) :=
  match parent_ (na p) with
  | None => Some Fails
  | Some q =>
      if decide (q ≠ p) then
        match fuel with
        | O => None
        | S fuel' =>
            get_path_loop fuel'
              (update_node na p (set_state NodeState.result)) q (path ++ [p])
        end
      else Some (Returns (na, p, path))
  end.

Definition get_path (fuel : nat) (m : GridMap C) (n : Coord)
    : option (outcome (GridMap C * list Coord)) :=
  match get_path_loop fuel (node_array_ m) n [] with
  | None => None
  | Some Fails => Some Fails
  | Some (Returns (na, p, path)) =>
      let na := update_node na n (set_state NodeState.goal) in
      let na := update_node na p (set_state NodeState.start) in
      Some (Returns (mkGridMap (vertex_matrix_ m) (stats_ m) na (open_list_ m)
                               (enable_diagonal_ m), path))
  end.

End GridMapMembers.

(** ** Sequences of frontier calls *)

(** The four frontier mutators of the graph contract, as the search driver
    calls them. *)
Inductive Call (C : Type) : Type :=
| OpenNode (n : Coord) (g h : C) (p : Coord)
| ReopenNode (n : Coord) (g h : C) (p : Coord)
| IncreaseNodePriority (n : Coord) (g h : C) (p : Coord)
| CloseFrontOpenNode.
Arguments OpenNode {C}.
Arguments ReopenNode {C}.
Arguments IncreaseNodePriority {C}.
Arguments CloseFrontOpenNode {C}.

Section Calls.
Context {C : Type} `{CostType C}.

Definition call (m : GridMap C) (c : Call C) : outcome (GridMap C) :=
  match c with
  | OpenNode n g h p => Returns (open_node m n g h p)
  | ReopenNode n g h p => Returns (reopen_node m n g h p)
  | IncreaseNodePriority n g h p => increase_node_priority m n g h p
  | CloseFrontOpenNode => fst <$> close_front_open_node m
  end.

Fixpoint run (m : GridMap C) (cs : list (Call C)) : outcome (GridMap C) :=
  match cs with
  | [] => Returns m
  | c :: cs' => m' ← call m c; run m' cs'
  end.




(** A map on which no search has run yet. *)
Definition fresh_map (vm : VertexMatrix C) (enable_diagonal : bool) : GridMap C :=
  mkGridMap vm fresh_stats fresh_node_array [] enable_diagonal.

End Calls.

(** ** Vocabulary of the specification *)

(** A cost type whose comparisons form a total order on all its values: int
    is one; double is not, as NaN is unordered (see [cost_order_on]). *)
Class TotalCost (C : Type) `{CostType C} : Prop := {
  cost_leb_ltb : forall a b : C, cost_leb a b = negb (cost_ltb b a);
  cost_leb_trans : forall a b c : C,
    cost_leb a b = true -> cost_leb b c = true -> cost_leb a c = true;
  cost_leb_total : forall a b : C, cost_leb a b = true \/ cost_leb b a = true
}.

(** The comparisons form a total order on the costs that satisfy [V]. *)
Record cost_order_on {C : Type} `{CostType C} (V : C -> Prop) : Prop := {
  order_leb_ltb : forall a b : C, V a -> V b ->
    cost_leb a b = negb (cost_ltb b a);
  order_leb_trans : forall a b c : C, V a -> V b -> V c ->
    cost_leb a b = true -> cost_leb b c = true -> cost_leb a c = true;
  order_leb_total : forall a b : C, V a -> V b ->
    cost_leb a b = true \/ cost_leb b a = true
}.


Section Vocabulary.
Context {C : Type} `{CostType C}.

(** The cells with a live entry in the open list, and the cells in state
    open. *)
Definition in_open_list (m : GridMap C) (c : Coord) : Prop := c ∈ open_list_ m.
Definition is_open (m : GridMap C) (c : Coord) : Prop :=
  state_ (node m c) = NodeState.open.

(** The linear-scan oracle: [c] is in the list and no element of the list
    has a smaller priority. *)
Definition minimum_of (priority : Coord -> C) (h : list Coord) (c : Coord) : Prop :=
  c ∈ h /\ forall c', c' ∈ h -> cost_leb (priority c) (priority c') = true.

(** The heap order of the array of the open list. *)
Definition heap_ordered (priority : Coord -> C) (h : list Coord) : Prop :=
  forall (i : nat) (a b : Coord), (0 < i)%nat ->
    h !! i = Some a -> h !! heap_parent i = Some b ->
    cost_leb (priority b) (priority a) = true.

(** The open list and the node states agree: the array of the open list is
    heap-ordered by the f-costs of the records, holds no cell twice, and holds
    exactly the cells whose state is open. *)
Definition frontier_consistent (m : GridMap C) : Prop :=
  heap_ordered (priority_of (node_array_ m)) (open_list_ m)
  /\ NoDup (open_list_ m)
  /\ forall c, is_open m c <-> in_open_list m c.

(** The part of this that needs no order on the costs: the open list holds
    no cell twice, and holds exactly the cells whose state is open. *)
Definition frontier_tracked (m : GridMap C) : Prop :=
  NoDup (open_list_ m) /\ forall c, is_open m c <-> in_open_list m c.

(** The priorities of the elements of an array satisfy [V]; the f-costs of
    the cells of the open list satisfy [V]. *)
Definition priorities_in (V : C -> Prop) (priority : Coord -> C)
    (h : list Coord) : Prop :=
  forall (i : nat) (a : Coord), h !! i = Some a -> V (priority a).

Definition costs_in (V : C -> Prop) (m : GridMap C) : Prop :=
  priorities_in V (priority_of (node_array_ m)) (open_list_ m).

(** The part of [frontier_consistent] that depends on the order of the
    costs: the array of the open list is heap-ordered, and the f-costs of its
    cells satisfy [V]. *)
Definition frontier_ordered (V : C -> Prop) (m : GridMap C) : Prop :=
  heap_ordered (priority_of (node_array_ m)) (open_list_ m) /\ costs_in V m.

(** The array is heap-ordered except, possibly, between position [i] and its
    parent: the state of the array while an element is sifted up. *)
Definition ordered_above (priority : Coord -> C) (h : list Coord) (i : nat) : Prop :=
  (forall j a b, (0 < j)%nat -> j ≠ i ->
     h !! j = Some a -> h !! heap_parent j = Some b ->
     cost_leb (priority b) (priority a) = true)
  /\ (forall j a b, (0 < i)%nat -> (0 < j)%nat -> heap_parent j = i ->
        h !! j = Some a -> h !! heap_parent i = Some b ->
        cost_leb (priority b) (priority a) = true).

(** The array is heap-ordered except, possibly, between position [i] and its
    children: the state of the array while an element is sifted down. *)
Definition ordered_below (priority : Coord -> C) (h : list Coord) (i : nat) : Prop :=
  (forall j a b, (0 < j)%nat -> heap_parent j ≠ i ->
     h !! j = Some a -> h !! heap_parent j = Some b ->
     cost_leb (priority b) (priority a) = true)
  /\ (forall j a b, (0 < i)%nat -> (0 < j)%nat -> heap_parent j = i ->
        h !! j = Some a -> h !! heap_parent i = Some b ->
        cost_leb (priority b) (priority a) = true).

(** The position [sift_down] moves the element at [i] to: [i] itself when no
    child precedes it, and otherwise the child that precedes the other. *)
Definition sift_target (priority : Coord -> C) (h : list Coord) (i : nat) : nat :=
  let s := if precedes priority h (2 * i + 1) i then (2 * i + 1)%nat else i in
  if precedes priority h (2 * i + 2) s then (2 * i + 2)%nat else s.

(** The steps of the two connectivities, in the order of the offset tables,
    and their weights. *)
Definition neighbor_steps (diagonal : bool) : list (Z * Z) :=
  if diagonal
  then [(-1, -1); (0, -1); (1, -1); (-1, 0); (1, 0); (-1, 1); (0, 1); (1, 1)]
  else [(0, -1); (-1, 0); (1, 0); (0, 1)].

Definition step_to (n : Coord) (o : Z * Z) : Coord :=
  (int_add (x n) o.1, int_add (y n) o.2).

Definition step_weight (o : Z * Z) : C :=
  if decide (o.1 = 0 \/ o.2 = 0) then kStraightEdgeWeight
  else kDiagonalEdgeWeight.

Definition edge_along (m : GridMap C) (n : Coord) (o : Z * Z) : option (Edge C) :=
  let c := step_to n o in
  match weight (vertex_matrix_ m) c with
  | Returns w =>
      if is_passable (vertex_matrix_ m) c
      then Some (mkEdge n c (cost_mul w (step_weight o)))
      else None
  | Fails => None
  end.

(** The parent chain of a cell: [parent_chain na n l s] when following the
    parent links from [n] visits the cells [l] (from [n] on) and then reaches
    [s], the first cell that is its own parent. *)
Inductive parent_chain (na : GridNodeArray C) : Coord -> list Coord -> Coord -> Prop :=
| chain_end (s : Coord) :
    parent_ (na s) = Some s -> parent_chain na s [] s
| chain_link (p q : Coord) (l : list Coord) (s : Coord) :
    parent_ (na p) = Some q -> q ≠ p -> parent_chain na q l s ->
    parent_chain na p (p :: l) s.

End Vocabulary.



(** The exact value of a finite [double] as a rational number. *)
Definition double_value (d : float) : option Q :=
  match double_fraction d with
  | Some (n, k) => Some (Qmake n (Z.to_pos (2 ^ k)))
  | None => None
  end.




(** ** Sample maps and searches *)

Definition sample_matrix : VertexMatrix Z := mkVertexMatrix 2 2 [1; 1; 1; 1].
Definition sample_map : GridMap Z := fresh_map sample_matrix true.

(** A sequence of calls that respects the state machine. *)
Definition sample_calls : list (Call Z) :=
  [OpenNode (0, 0) 0 4 (0, 0); CloseFrontOpenNode;
   OpenNode (1, 0) 1 3 (0, 0); OpenNode (0, 1) 1 4 (0, 0);
   OpenNode (1, 1) 2 2 (0, 0); IncreaseNodePriority (0, 1) 1 1 (0, 0);
   CloseFrontOpenNode; ReopenNode (0, 0) 0 1 (0, 1)].




(** A search on the sample map: (0,0) is opened as its own parent and closed,
    then (1,1) is opened with parent (0,0). *)
Definition sample_search : GridMap Z :=
  let m := open_node sample_map (0, 0) 0 2 (0, 0) in
  match close_front_open_node m with
  | Returns (m', _) => open_node m' (1, 1) 1 0 (0, 0)
  | Fails => m
  end.

(** The same search, continued by opening (3,3) with parent (1,1). *)
Definition sample_search_far : GridMap Z :=
  open_node sample_search (3, 3) 2 0 (1, 1).


(** ** Vocabulary for sequences of calls *)

Section CallVocabulary.
Context {C : Type}.

Definition is_open_call (c : Call C) : bool :=
  match c with OpenNode _ _ _ _ => true | _ => false end.
Definition is_reopen_call (c : Call C) : bool :=
  match c with ReopenNode _ _ _ _ => true | _ => false end.
Definition is_increase_call (c : Call C) : bool :=
  match c with IncreaseNodePriority _ _ _ _ => true | _ => false end.
Definition is_close_call (c : Call C) : bool :=
  match c with CloseFrontOpenNode => true | _ => false end.

(** The number of calls of one kind in a sequence. *)
Fixpoint count_calls (kind : Call C -> bool) (cs : list (Call C)) : Z :=
  match cs with
  | [] => 0
  | c :: cs' => (if kind c then 1 else 0) + count_calls kind cs'
  end.

(** The g-cost and the parent that a call writes into the record of [n]. *)
Definition written_by (c : Call C) (n : Coord) : option (C * Coord) :=
  match c with
  | OpenNode n' g _ p | ReopenNode n' g _ p | IncreaseNodePriority n' g _ p =>
      if decide (n' = n) then Some (g, p) else None
  | CloseFrontOpenNode => None
  end.

(** The g-cost and the parent that the last call on [n] in a sequence
    writes. *)
Fixpoint last_written (cs : list (Call C)) (n : Coord) : option (C * Coord) :=
  match cs with
  | [] => None
  | c :: cs' =>
      match last_written cs' n with
      | Some r => Some r
      | None => written_by c n
      end
  end.

(** The cells that a sequence of calls opens or reopens. *)
Fixpoint opened_cells (cs : list (Call C)) : list Coord :=
  match cs with
  | [] => []
  | OpenNode n _ _ _ :: cs' | ReopenNode n _ _ _ :: cs' => n :: opened_cells cs'
  | _ :: cs' => opened_cells cs'
  end.

End CallVocabulary.

Section ExploredVocabulary.
Context {C : Type} `{CostType C}.

(** The cells of [S] are the ones that were opened: the open list holds
    cells of [S] only, the cells of [S] are open or closed and the others are
    unexplored. *)
Definition explored_are (m : GridMap C) (S : list Coord) : Prop :=
  (forall c, c ∈ open_list_ m -> c ∈ S)
  /\ (forall c, c ∈ S ->
        state_ (node m c) = NodeState.open \/ state_ (node m c) = NodeState.closed)
  /\ (forall c, c ∉ S -> state_ (node m c) = NodeState.unexplored).

End ExploredVocabulary.

(** Coordinates strictly between [-B] and [B]. *)
Definition coord_within (B : Z) (c : Coord) : Prop :=
  - B < x c < B /\ - B < y c < B.

(** Coordinates far from the bounds of int, where no distance overflows. *)
Definition small_coord (c : Coord) : Prop := coord_within (2 ^ 28) c.

(** Two cells that are each other's parent. *)
Definition sample_cycle : GridMap Z :=
  open_node (open_node sample_map (1, 0) 1 0 (0, 1)) (0, 1) 1 0 (1, 0).

(** * Properties *)

(** ** Arithmetic of [int] *)

Lemma wrap_in_range (z : Z) : - 2 ^ 31 <= z < 2 ^ 31 -> wrap z = z.
Proof.
  intros Hz. unfold wrap.
  rewrite Z.mod_small by lia. lia.
Qed.

Lemma wrap_sub_wrap_l (a b : Z) : wrap (wrap a - b) = wrap (a - b).
Proof.
  unfold wrap.
  replace ((a + 2 ^ 31) mod 2 ^ 32 - 2 ^ 31 - b + 2 ^ 31)
    with ((a + 2 ^ 31) mod 2 ^ 32 - b) by lia.
  rewrite Zminus_mod_idemp_l. do 2 f_equal. lia.
Qed.

Lemma int_step_back (a o : Z) :
  -1 <= o <= 1 -> int_sub (int_add a o) a = o.
Proof.
  intros Ho. unfold int_sub, int_add.
  rewrite wrap_sub_wrap_l.
  replace (a + o - a) with o by lia.
  apply wrap_in_range. lia.
Qed.

Lemma int_abs_step (a o : Z) :
  -1 <= o <= 1 -> int_abs (int_sub (int_add a o) a) = Z.abs o.
Proof.
  intros Ho. rewrite int_step_back by done.
  unfold int_abs. apply wrap_in_range. lia.
Qed.

Lemma int_sub_exact (a b : Z) :
  Z.abs (a - b) < 2 ^ 31 -> int_abs (int_sub a b) = Z.abs (a - b).
Proof.
  intros Hd. unfold int_abs, int_sub.
  rewrite (wrap_in_range (a - b)) by lia.
  apply wrap_in_range. lia.
Qed.

(** ** Neighbours and step weights *)

Section StepFacts.
Context {C : Type} `{CostType C}.

Lemma edge_span_step (c : Coord) (ox oy : Z) :
  -1 <= ox <= 1 -> -1 <= oy <= 1 ->
  edge_span c (int_add c.1 ox, int_add c.2 oy) = Z.abs oy + Z.abs ox.
Proof.
  intros Hx Hy. unfold edge_span, x, y. simpl.
  rewrite !int_abs_step by done.
  unfold int_add. apply wrap_in_range. lia.
Qed.

Lemma neighbor_is_step (c c' : Coord) :
  c' ∈ coord_4_neighbors c \/ c' ∈ coord_8_neighbors c ->
  exists ox oy, c' = (int_add c.1 ox, int_add c.2 oy)
    /\ -1 <= ox <= 1 /\ -1 <= oy <= 1 /\ (ox ≠ 0 \/ oy ≠ 0).
Proof.
  unfold coord_4_neighbors, coord_8_neighbors, offset_neighbors.
  simpl. rewrite !elem_of_cons, !elem_of_nil.
  intros Hin.
  repeat match goal with
         | Hor : _ \/ _ |- _ => destruct Hor as [Hor | Hor]
         | Hf : False |- _ => destruct Hf
         | Heq : c' = (int_add _ ?ox, int_add _ ?oy) |- _ =>
             exists ox, oy; split; [exact Heq | lia]
         end.
Qed.

Lemma edge_weight_step (c : Coord) (o : Z * Z) :
  o ∈ neighbor_steps true ->
  edge_weight c (step_to c o) = Returns (step_weight o).
Proof.
  intros Ho. unfold edge_weight, step_to, x, y.
  simpl in Ho. rewrite !elem_of_cons, elem_of_nil in Ho.
  repeat match goal with
         | Hor : _ \/ _ |- _ => destruct Hor as [Hor | Hor]
         | Hf : False |- _ => destruct Hf
         end; subst o; rewrite edge_span_step by (simpl; lia); reflexivity.
Qed.

Lemma neighbor_steps_4_8 (o : Z * Z) :
  o ∈ neighbor_steps false -> o ∈ neighbor_steps true.
Proof.
  simpl. rewrite !elem_of_cons, !elem_of_nil. tauto.
Qed.

Lemma coord_neighbors_steps (diagonal : bool) (n : Coord) :
  (if diagonal then coord_8_neighbors n else coord_4_neighbors n)
  = map (step_to n) (neighbor_steps diagonal).
Proof. destruct diagonal; reflexivity. Qed.

End StepFacts.

(** C8: every coordinate that coord_4_neighbors or coord_8_neighbors produces
    for a cell is at Manhattan distance exactly 1 or exactly 2 from that cell
    (as edge_weight computes the distance, wrap-around of int included), so
    edge_weight returns the straight weight at distance 1 and the diagonal
    weight at distance 2, and never reaches its failing assertion. *)
Theorem generated_neighbors_have_edge_weight
    {C : Type} `{CostType C} (c c' : Coord) :
  c' ∈ coord_4_neighbors c \/ c' ∈ coord_8_neighbors c ->
  (edge_span c c' = 1 \/ edge_span c c' = 2)
  /\ (edge_span c c' = 1 -> edge_weight c c' = Returns kStraightEdgeWeight)
  /\ (edge_span c c' = 2 -> edge_weight c c' = Returns kDiagonalEdgeWeight)
  /\ returned (edge_weight (C := C) c c') = true.
Proof.
  intros Hin.
  destruct (neighbor_is_step c c' Hin) as (ox & oy & -> & Hx & Hy & Hnz).
  assert (Hspan : edge_span c (int_add c.1 ox, int_add c.2 oy) = 1
                  \/ edge_span c (int_add c.1 ox, int_add c.2 oy) = 2).
  { rewrite edge_span_step by done. lia. }
  split; [exact Hspan|].
  unfold edge_weight.
  destruct Hspan as [-> | ->]; simpl; repeat split; intros; (done || lia).
Qed.

Lemma generated_neighbors_have_edge_weight_witness :
  ((2, 1) : Coord) ∈ coord_4_neighbors (1, 1)
  /\ edge_span (1, 1) (2, 1) = 1
  /\ edge_weight (C := float) (1, 1) (2, 1) = Returns 1%float
  /\ edge_weight (C := float) (1, 1) (2, 2) = Returns 1.4143%float.
Proof.
  assert (H4 : ((2, 1) : Coord) ∈ coord_4_neighbors (1, 1)).
  { apply list_elem_of_In. vm_compute. auto 12. }
  assert (H8 : ((2, 2) : Coord) ∈ coord_8_neighbors (1, 1)).
  { apply list_elem_of_In. vm_compute. auto 12. }
  pose proof (generated_neighbors_have_edge_weight (C := float)
                (1, 1) (2, 1) (or_introl H4)) as (_ & Hs & _ & _).
  pose proof (generated_neighbors_have_edge_weight (C := float)
                (1, 1) (2, 2) (or_intror H8)) as (_ & _ & Hd & _).
  split; [exact H4|].
  split; [reflexivity|].
  split; [apply Hs; reflexivity | apply Hd; reflexivity].
Defined.

(** ** The weight constants *)

(** C4, as stated, fails for the default cost type: the diagonal weight of
    GridMap<double> is the double closest to 1.4143; it lies more than 0.00008
    above 1.41421, it is not the double closest to the square root of 2, and
    its square exceeds 2. *)
Lemma diagonal_weight_is_not_sqrt2 :
  double_value (kDiagonalEdgeWeight (C := float))
    = Some (6369440952990092 # 4503599627370496)%Q
  /\ ((141421 # 100000) + (8 # 100000) < (6369440952990092 # 4503599627370496))%Q
  /\ PrimFloat.eqb (kDiagonalEdgeWeight (C := float)) (PrimFloat.sqrt 2) = false
  /\ (2 < (6369440952990092 # 4503599627370496)
          * (6369440952990092 # 4503599627370496))%Q.
Proof.
  repeat split; vm_compute; reflexivity.
Qed.

(** C4, amended: the diagonal step weight is the literal 1.4143 converted to
    the cost type.  For double it is the double closest to 1.4143, within
    10^-15 of it, which overestimates the square root of 2 by less than
    0.0001; for int it is 1.  The straight step weight is 1.0 converted to the
    cost type: 1 for both. *)
Theorem weight_constants :
  kDiagonalEdgeWeight (C := float) = 1.4143%float
  /\ (exists q : Q,
        double_value (kDiagonalEdgeWeight (C := float)) = Some q
        /\ ((14143 # 10000) - (1 # 1000000000000000) < q)%Q
        /\ (q < (14143 # 10000) + (1 # 1000000000000000))%Q
        /\ (2 < q * q)%Q
        /\ ((q - (1 # 10000)) * (q - (1 # 10000)) < 2)%Q)
  /\ kDiagonalEdgeWeight (C := Z) = 1
  /\ kStraightEdgeWeight (C := float) = 1%float
  /\ (exists q : Q,
        double_value (kStraightEdgeWeight (C := float)) = Some q /\ (q == 1)%Q)
  /\ kStraightEdgeWeight (C := Z) = 1.
Proof.
  split; [reflexivity|].
  split.
  { exists (6369440952990092 # 4503599627370496)%Q.
    repeat split; vm_compute; reflexivity. }
  split; [vm_compute; reflexivity|].
  split; [vm_compute; reflexivity|].
  split; [|vm_compute; reflexivity].
  exists (4503599627370496 # 4503599627370496)%Q.
  split; vm_compute; reflexivity.
Qed.

(** ** The distance functions *)

(** C9, as stated, fails: for GridMap<int> the Euclidean distance between
    (0,0) and (1,1) is 1, whose square is not 2 (the square root is cut to the
    cost type); and where a coordinate difference does not fit in an int the
    Manhattan distance is not |dx| + |dy| (here it is negative). *)
Lemma distances_counterexample :
  duclidean_distance (C := Z) (0, 0) (1, 1) = 1
  /\ cost_mul (C := Z) 1 1 ≠ cost_of_int 2
  /\ manhattan_distance (C := Z) (- 2 ^ 30, 0) (2 ^ 30, 0) = - 2 ^ 31
  /\ Z.abs (2 ^ 30 - - 2 ^ 30) + Z.abs (0 - 0) = 2 ^ 31.
Proof.
  repeat split; try (vm_compute; reflexivity).
  vm_compute. discriminate.
Qed.

(** C9, amended: for coordinates whose differences dx, dy and the sum
    |dx| + |dy| fit in an int, manhattan_distance is |dx| + |dy| converted to
    the cost type, and diagonal_distance is
    kDiagonalEdgeWeight * min(|dx|,|dy|)
    + kStraightEdgeWeight * (max(|dx|,|dy|) - min(|dx|,|dy|)) in the arithmetic
    of the cost type, with the two constants that edge_weight returns as step
    weights; where dx^2 + dy^2 fits in an int as well, the Euclidean distance
    function is the double-precision square root of dx^2 + dy^2 converted to
    the cost type (so cut to its integer part for an integer cost type). *)
Theorem distance_functions {C : Type} `{CostType C} (a b : Coord) :
  let dx := Z.abs (x b - x a) in
  let dy := Z.abs (y b - y a) in
  dx + dy < 2 ^ 31 ->
  manhattan_distance a b = cost_of_int (dx + dy)
  /\ diagonal_distance a b
     = cost_add (cost_mul (cost_of_int (Z.min dx dy)) kDiagonalEdgeWeight)
                (cost_mul (cost_of_int (Z.max dx dy - Z.min dx dy))
                          kStraightEdgeWeight)
  /\ (forall (c0 c1 : Coord) (w : C), edge_weight c0 c1 = Returns w ->
        w = kStraightEdgeWeight \/ w = kDiagonalEdgeWeight)
  /\ (dx * dx + dy * dy < 2 ^ 31 ->
      duclidean_distance a b
      = cost_of_double (PrimFloat.sqrt (double_of_int (dx * dx + dy * dy)))).
Proof.
  intros dx dy Hsum.
  assert (Hx : int_abs (int_sub (x b) (x a)) = dx).
  { apply int_sub_exact. lia. }
  assert (Hy : int_abs (int_sub (y b) (y a)) = dy).
  { apply int_sub_exact. lia. }
  repeat split.
  - unfold manhattan_distance. rewrite Hx, Hy.
    unfold int_add. rewrite wrap_in_range by lia. reflexivity.
  - unfold diagonal_distance. rewrite Hx, Hy. cbv zeta.
    unfold int_sub. rewrite wrap_in_range by lia. reflexivity.
  - intros c0 c1 w. unfold edge_weight.
    destruct (edge_span c0 c1 =? 2); [intros [= <-]; by right|].
    destruct (edge_span c0 c1 =? 1); [intros [= <-]; by left|].
    discriminate.
  - intros Hsq. unfold duclidean_distance. rewrite Hx, Hy. cbv zeta.
    unfold int_add, int_mul.
    rewrite (wrap_in_range (dx * dx)) by nia.
    rewrite (wrap_in_range (dy * dy)) by nia.
    rewrite wrap_in_range by nia. reflexivity.
Qed.

Lemma distance_functions_witness :
  manhattan_distance (C := Z) (0, 0) (2, 2) = 4
  /\ diagonal_distance (C := float) (0, 0) (3, 5)
     = (3 * 1.4143 + 2 * 1)%float
  /\ duclidean_distance (C := Z) (0, 0) (3, 4) = 5
  /\ duclidean_distance (C := float) (0, 0) (1, 1) = PrimFloat.sqrt 2.
Proof.
  assert (H4 : Z.abs (x (2, 2) - x (0, 0)) + Z.abs (y (2, 2) - y (0, 0)) < 2 ^ 31)
    by (vm_compute; reflexivity).
  assert (H8 : Z.abs (x (3, 5) - x (0, 0)) + Z.abs (y (3, 5) - y (0, 0)) < 2 ^ 31)
    by (vm_compute; reflexivity).
  assert (H7 : Z.abs (x (3, 4) - x (0, 0)) + Z.abs (y (3, 4) - y (0, 0)) < 2 ^ 31)
    by (vm_compute; reflexivity).
  assert (H2 : Z.abs (x (1, 1) - x (0, 0)) + Z.abs (y (1, 1) - y (0, 0)) < 2 ^ 31)
    by (vm_compute; reflexivity).
  pose proof (distance_functions (C := Z) (0, 0) (2, 2) H4) as (Hm & _).
  pose proof (distance_functions (C := float) (0, 0) (3, 5) H8) as (_ & Hd & _).
  pose proof (distance_functions (C := Z) (0, 0) (3, 4) H7) as (_ & _ & _ & He).
  pose proof (distance_functions (C := float) (0, 0) (1, 1) H2) as (_ & _ & _ & Hf).
  split; [rewrite Hm; reflexivity|].
  split; [rewrite Hd; vm_compute; reflexivity|].
  split; [rewrite He by (vm_compute; reflexivity); vm_compute; reflexivity|].
  rewrite Hf by (vm_compute; reflexivity). vm_compute. reflexivity.
Defined.

(** ** Edges *)

Section EdgesFacts.
Context {C : Type} `{CostType C}.

Lemma bind_Returns {A B : Type} (a : A) (k : A -> outcome B) :
  (Returns a ≫= k) = k a.
Proof. reflexivity. Qed.

Lemma omap_cons_Some {A B : Type} (f : A -> option B) (a : A) (b : B) (l : list A) :
  f a = Some b -> omap f (a :: l) = b :: omap f l.
Proof. intros Hf. simpl. by rewrite Hf. Qed.

Lemma omap_cons_None {A B : Type} (f : A -> option B) (a : A) (l : list A) :
  f a = None -> omap f (a :: l) = omap f l.
Proof. intros Hf. simpl. by rewrite Hf. Qed.

Lemma is_passable_weight (vm : VertexMatrix C) (c : Coord) :
  is_passable vm c = true -> exists w, weight vm c = Returns w.
Proof.
  unfold is_passable. destruct (weight vm c) as [w|]; [eauto | discriminate].
Qed.

Lemma edge_along_passable (m : GridMap C) (n : Coord) (o : Z * Z) :
  is_passable (vertex_matrix_ m) (step_to n o) = true ->
  exists w, weight (vertex_matrix_ m) (step_to n o) = Returns w
    /\ edge_along m n o = Some (mkEdge n (step_to n o) (cost_mul w (step_weight o))).
Proof.
  intros Hp. destruct (is_passable_weight _ _ Hp) as [w Hw].
  exists w. split; [exact Hw|].
  unfold edge_along. cbv zeta. rewrite Hw, Hp. reflexivity.
Qed.

Lemma edge_along_blocked (m : GridMap C) (n : Coord) (o : Z * Z) :
  is_passable (vertex_matrix_ m) (step_to n o) = false ->
  edge_along m n o = None.
Proof.
  intros Hp. unfold edge_along. cbv zeta. rewrite Hp.
  by destruct (weight _ _).
Qed.

Lemma edges_loop_cons (m : GridMap C) (n c : Coord) (coords : list Coord)
    (es : list (Edge C)) :
  edges_loop m n (c :: coords) es
  = if is_passable (vertex_matrix_ m) c
    then w ← edge_cost m n c; edges_loop m n coords (es ++ [mkEdge n c w])
    else edges_loop m n coords es.
Proof. reflexivity. Qed.

Lemma edges_loop_steps (m : GridMap C) (n : Coord) (steps : list (Z * Z)) :
  (forall o, o ∈ steps -> o ∈ neighbor_steps true) ->
  forall es,
    edges_loop m n (map (step_to n) steps) es
    = Returns (es ++ omap (edge_along m n) steps).
Proof.
  induction steps as [|o steps IH]; intros Hsteps es.
  { simpl. by rewrite app_nil_r. }
  assert (Ho : o ∈ neighbor_steps true) by (apply Hsteps; left).
  assert (Hrest : forall o', o' ∈ steps -> o' ∈ neighbor_steps true)
    by (intros o' Ho'; apply Hsteps; by right).
  rewrite map_cons, edges_loop_cons.
  destruct (is_passable (vertex_matrix_ m) (step_to n o)) eqn:Hp.
  - destruct (edge_along_passable m n o Hp) as (w & Hw & He).
    rewrite (omap_cons_Some _ _ _ _ He).
    unfold edge_cost.
    rewrite Hw, bind_Returns, (edge_weight_step n o Ho), bind_Returns.
    unfold mret, outcome_ret. rewrite bind_Returns.
    rewrite IH by done. by rewrite <- app_assoc.
  - rewrite (omap_cons_None _ _ _ (edge_along_blocked m n o Hp)). by apply IH.
Qed.

Lemma omap_edge_along_targets (m : GridMap C) (n : Coord) (steps : list (Z * Z)) :
  map edge_to (omap (edge_along m n) steps)
  = filter (fun c => is_passable (vertex_matrix_ m) c) (map (step_to n) steps).
Proof.
  induction steps as [|o steps IH]; [done|]. simpl.
  destruct (is_passable (vertex_matrix_ m) (step_to n o)) eqn:Hp.
  - destruct (edge_along_passable m n o Hp) as (w & _ & ->). simpl.
    rewrite filter_cons_True by (by rewrite Hp). f_equal. exact IH.
  - rewrite (edge_along_blocked m n o Hp).
    rewrite filter_cons_False by (rewrite Hp; simpl; tauto). exact IH.
Qed.

End EdgesFacts.

(** C3: edges(n) goes through the 8 neighbours of n when the map was built
    with diagonal movement and through the 4 axis-aligned ones otherwise (in
    the order of the offset tables), keeps exactly the neighbours c with
    is_passable(c), and returns for each of them the edge (n, c, w) with
    w = weight(c) * step weight, the step weight being kStraightEdgeWeight for
    an axis-aligned step and kDiagonalEdgeWeight for a diagonal one. *)
Theorem edges_enumerates_passable_neighbors
    {C : Type} `{CostType C} (m : GridMap C) (n : Coord) :
  let steps := neighbor_steps (enable_diagonal_ m) in
  exists es : list (Edge C),
    edges m n = Returns es
    /\ es = omap (edge_along m n) steps
    /\ map edge_to es
       = filter (fun c => is_passable (vertex_matrix_ m) c) (map (step_to n) steps)
    /\ Forall (fun e : Edge C =>
                 edge_from e = n
                 /\ exists (o : Z * Z) (w : C),
                      o ∈ steps /\ edge_to e = step_to n o
                      /\ weight (vertex_matrix_ m) (edge_to e) = Returns w
                      /\ edge_cost_ e = cost_mul w (step_weight o)) es.
Proof.
  intros steps.
  exists (omap (edge_along m n) steps).
  split.
  { unfold edges. rewrite coord_neighbors_steps.
    rewrite edges_loop_steps; [done|].
    intros o. subst steps. destruct (enable_diagonal_ m); [done|].
    apply neighbor_steps_4_8. }
  split; [done|].
  split; [apply omap_edge_along_targets|].
  apply Forall_forall. intros e He.
  apply list_elem_of_omap in He as (o & Ho & He).
  unfold edge_along in He. cbv zeta in He.
  destruct (weight (vertex_matrix_ m) (step_to n o)) as [w|] eqn:Hw; [|done].
  destruct (is_passable (vertex_matrix_ m) (step_to n o)); [|done].
  injection He as <-. simpl.
  split; [done|]. exists o, w. by rewrite Hw.
Qed.

(** The two scenarios of the specification: the 8 neighbours of the centre of
    an open 3x3 grid of doubles, and the 2 passable neighbours of the corner
    of a 3x3 grid of ints with a blocked centre and no diagonal moves. *)
Example edges_scenarios :
  (m ← new_GridMap 3 3 (replicate 9 1%float) true; edges m (1, 1))
  = Returns [mkEdge (1, 1) (0, 0) 1.4143%float; mkEdge (1, 1) (1, 0) 1%float;
             mkEdge (1, 1) (2, 0) 1.4143%float; mkEdge (1, 1) (0, 1) 1%float;
             mkEdge (1, 1) (2, 1) 1%float; mkEdge (1, 1) (0, 2) 1.4143%float;
             mkEdge (1, 1) (1, 2) 1%float; mkEdge (1, 1) (2, 2) 1.4143%float]
  /\ (m ← new_GridMap 3 3 [1; 1; 1; 1; -1; 1; 1; 1; 1] false; edges m (0, 0))
     = Returns [mkEdge (0, 0) (1, 0) 1; mkEdge (0, 0) (0, 1) 1].
Proof. split; vm_compute; reflexivity. Qed.

(** ** The binary heap of the open list *)

Lemma heap_parent_lt (i : nat) : (0 < i)%nat -> (heap_parent i < i)%nat.
Proof.
  intros Hi. unfold heap_parent.
  pose proof (Nat.div_mod_eq (i - 1) 2).
  pose proof (Nat.mod_upper_bound (i - 1) 2). lia.
Qed.

Lemma heap_parent_children (i j : nat) :
  (0 < j)%nat -> heap_parent j = i ->
  j = (2 * i + 1)%nat \/ j = (2 * i + 2)%nat.
Proof.
  intros Hj <-. unfold heap_parent.
  pose proof (Nat.div_mod_eq (j - 1) 2).
  pose proof (Nat.mod_upper_bound (j - 1) 2). lia.
Qed.

Lemma heap_parent_left (i : nat) : heap_parent (2 * i + 1) = i.
Proof.
  unfold heap_parent.
  pose proof (Nat.div_mod_eq (2 * i + 1 - 1) 2).
  pose proof (Nat.mod_upper_bound (2 * i + 1 - 1) 2). lia.
Qed.

Lemma heap_parent_right (i : nat) : heap_parent (2 * i + 2) = i.
Proof.
  unfold heap_parent.
  pose proof (Nat.div_mod_eq (2 * i + 2 - 1) 2).
  pose proof (Nat.mod_upper_bound (2 * i + 2 - 1) 2). lia.
Qed.

Section SwapFacts.

Lemma insert_head_Permutation (t : list Coord) (j : nat) (b c : Coord) :
  t !! j = Some b -> b :: <[j := c]> t ≡ₚ c :: t.
Proof.
  revert j. induction t as [|d t IH]; intros [|j] Hj; simplify_eq/=.
  - apply perm_swap.
  - rewrite perm_swap. rewrite (IH j Hj). apply perm_swap.
Qed.

Lemma swap_Permutation (h : list Coord) (i j : nat) : swap h i j ≡ₚ h.
Proof.
  unfold swap.
  destruct (h !! i) as [a|] eqn:Hi; [|done].
  destruct (h !! j) as [b|] eqn:Hj; [|done].
  revert i j Hi Hj.
  induction h as [|c h IH]; intros [|i] [|j] Hi Hj; simplify_eq/=.
  - done.
  - by apply insert_head_Permutation.
  - by apply insert_head_Permutation.
  - by rewrite IH.
Qed.

Lemma swap_length (h : list Coord) (i j : nat) : length (swap h i j) = length h.
Proof. apply Permutation_length, swap_Permutation. Qed.

Lemma swap_lookup (h : list Coord) (i j k : nat) :
  (i < length h)%nat -> (j < length h)%nat ->
  swap h i j !! k
  = if decide (k = i) then h !! j else if decide (k = j) then h !! i else h !! k.
Proof.
  intros Hi Hj. unfold swap.
  destruct (lookup_lt_is_Some_2 h i Hi) as [a Ha].
  destruct (lookup_lt_is_Some_2 h j Hj) as [b Hb].
  rewrite Ha, Hb.
  destruct (decide (k = i)) as [->|Hki].
  - by rewrite list_lookup_insert_eq by (by rewrite length_insert).
  - rewrite list_lookup_insert_ne by done.
    destruct (decide (k = j)) as [->|Hkj].
    + by rewrite list_lookup_insert_eq.
    + by rewrite list_lookup_insert_ne.
Qed.

Lemma swap_lookup_l (h : list Coord) (i j : nat) :
  (i < length h)%nat -> (j < length h)%nat -> swap h i j !! i = h !! j.
Proof. intros Hi Hj. rewrite swap_lookup by done. by rewrite decide_True. Qed.

Lemma swap_lookup_r (h : list Coord) (i j : nat) :
  (i < length h)%nat -> (j < length h)%nat -> swap h i j !! j = h !! i.
Proof.
  intros Hi Hj. rewrite swap_lookup by done.
  destruct (decide (j = i)) as [->|]; [done|]. by rewrite decide_True.
Qed.

Lemma swap_lookup_ne (h : list Coord) (i j k : nat) :
  (i < length h)%nat -> (j < length h)%nat -> k ≠ i -> k ≠ j ->
  swap h i j !! k = h !! k.
Proof.
  intros Hi Hj Hki Hkj. rewrite swap_lookup by done.
  by rewrite !decide_False.
Qed.

End SwapFacts.

Section HeapOrder.
Context {C : Type} `{CostType C}.
Variable V : C -> Prop.
Hypothesis V_order : cost_order_on V.
Variable priority : Coord -> C.

Local Notation "a ⊑ b" := (cost_leb (priority a) (priority b) = true)
  (at level 70).

Lemma prio_refl (a : Coord) : V (priority a) -> a ⊑ a.
Proof.
  intros Ha.
  by destruct (order_leb_total V V_order (priority a) (priority a) Ha Ha).
Qed.

Lemma prio_trans (a b c : Coord) :
  V (priority a) -> V (priority b) -> V (priority c) ->
  a ⊑ b -> b ⊑ c -> a ⊑ c.
Proof. apply (order_leb_trans V V_order). Qed.

Lemma priorities_in_elem_of (h : list Coord) :
  priorities_in V priority h <-> forall a, a ∈ h -> V (priority a).
Proof.
  split.
  - intros Hall a [i Hi]%list_elem_of_lookup. by apply (Hall i).
  - intros Hall i a Hi. by apply Hall, (list_elem_of_lookup_2 h i).
Qed.

Lemma priorities_in_Permutation (h h' : list Coord) :
  h ≡ₚ h' -> priorities_in V priority h -> priorities_in V priority h'.
Proof.
  rewrite !priorities_in_elem_of. intros Hp Hall a Ha. apply Hall.
  by rewrite Hp.
Qed.

Lemma priorities_in_swap (h : list Coord) (i j : nat) :
  priorities_in V priority h -> priorities_in V priority (swap h i j).
Proof. apply priorities_in_Permutation. symmetry. apply swap_Permutation. Qed.

Lemma precedes_true (h : list Coord) (i j : nat) :
  priorities_in V priority h ->
  precedes priority h i j = true ->
  exists a b, h !! i = Some a /\ h !! j = Some b /\ a ⊑ b.
Proof.
  unfold precedes. intros Hall Hp.
  destruct (h !! i) as [a|] eqn:Hi; [|done].
  destruct (h !! j) as [b|] eqn:Hj; [|done].
  exists a, b. repeat split.
  assert (Va : V (priority a)) by eauto.
  assert (Vb : V (priority b)) by eauto.
  destruct (order_leb_total V V_order (priority a) (priority b) Va Vb)
    as [Hab|Hba]; [done|].
  rewrite (order_leb_ltb V V_order _ _ Vb Va), Hp in Hba. done.
Qed.

Lemma precedes_false (h : list Coord) (i j : nat) (a b : Coord) :
  priorities_in V priority h ->
  precedes priority h i j = false ->
  h !! i = Some a -> h !! j = Some b -> b ⊑ a.
Proof.
  unfold precedes. intros Hall Hp Hi Hj. rewrite Hi, Hj in Hp.
  rewrite (order_leb_ltb V V_order) by eauto. by rewrite Hp.
Qed.

Lemma sift_up_Permutation (fuel : nat) (h : list Coord) (i : nat) :
  sift_up priority fuel h i ≡ₚ h.
Proof.
  revert h i. induction fuel as [|fuel IH]; intros h i; simpl; [done|].
  destruct (decide (i = 0%nat)); [done|].
  destruct (precedes priority h i (heap_parent i)); [|done].
  rewrite IH. apply swap_Permutation.
Qed.

Lemma sift_down_Permutation (fuel : nat) (h : list Coord) (i : nat) :
  sift_down priority fuel h i ≡ₚ h.
Proof.
  revert h i. induction fuel as [|fuel IH]; intros h i; simpl; [done|].
  match goal with |- context [decide (?s = i)] => destruct (decide (s = i)) end;
    [done|].
  rewrite IH. apply swap_Permutation.
Qed.

Lemma sift_up_ordered (fuel : nat) (h : list Coord) (i : nat) :
  (i <= fuel)%nat -> (i < length h)%nat ->
  priorities_in V priority h ->
  ordered_above priority h i -> heap_ordered priority (sift_up priority fuel h i).
Proof.
  revert h i.
  induction fuel as [|fuel IH]; intros h i Hfuel Hlen Hall [Ha Hb]; simpl.
  { intros j a b Hj Hja Hjb. apply (Ha j); [lia..|done|done]. }
  destruct (decide (i = 0%nat)) as [->|Hi0].
  { intros j a b Hj Hja Hjb. apply (Ha j); [lia..|done|done]. }
  pose proof (heap_parent_lt i ltac:(lia)) as Hpi.
  destruct (precedes priority h i (heap_parent i)) eqn:Hprec.
  - destruct (precedes_true _ _ _ Hall Hprec) as (a & b & Hia & Hpb & Hab).
    apply IH; [lia | rewrite swap_length; lia | by apply priorities_in_swap |].
    split.
    + intros j a' b' Hj Hjp Hja' Hjb'.
      destruct (decide (j = i)) as [->|Hji].
      * rewrite swap_lookup_l in Hja' by lia.
        rewrite swap_lookup_r in Hjb' by lia. by simplify_eq.
      * rewrite swap_lookup_ne in Hja' by (done || lia).
        destruct (decide (heap_parent j = i)) as [Hpj|Hpj].
        { rewrite Hpj, swap_lookup_l in Hjb' by lia. simplify_eq.
          apply (Hb j); (done || lia). }
        destruct (decide (heap_parent j = heap_parent i)) as [Hpp|Hpp].
        { rewrite Hpp, swap_lookup_r in Hjb' by lia. simplify_eq.
          apply prio_trans with b; [by eauto..|done|].
          apply (Ha j); [done..|]. by rewrite Hpp. }
        rewrite swap_lookup_ne in Hjb' by (done || lia).
        by apply (Ha j).
    + intros j a' b' Hp0 Hj Hjp Hja' Hjb'.
      pose proof (heap_parent_lt (heap_parent i) Hp0) as Hppi.
      rewrite swap_lookup_ne in Hjb' by lia.
      assert (Hbb : b' ⊑ b) by (apply (Ha (heap_parent i)); [lia..|done|done]).
      destruct (decide (j = i)) as [->|Hji].
      * rewrite swap_lookup_l in Hja' by lia. by simplify_eq.
      * pose proof (heap_parent_lt j Hj).
        rewrite swap_lookup_ne in Hja' by lia.
        apply prio_trans with b; [by eauto..|done|].
        apply (Ha j); [done..|]. by rewrite Hjp.
  - intros j a' b' Hj Hja' Hjb'.
    destruct (decide (j = i)) as [->|Hji]; [|by eapply Ha].
    by apply (precedes_false h i (heap_parent i)).
Qed.

Lemma sift_target_cases (h : list Coord) (i : nat) :
  priorities_in V priority h ->
  (sift_target priority h i = i
   /\ forall j a b, heap_parent j = i -> (0 < j)%nat ->
        h !! j = Some a -> h !! i = Some b -> b ⊑ a)
  \/ (sift_target priority h i ≠ i
      /\ heap_parent (sift_target priority h i) = i
      /\ (i < sift_target priority h i)%nat
      /\ exists c d, h !! sift_target priority h i = Some c /\ h !! i = Some d /\ c ⊑ d
           /\ forall j e, heap_parent j = i -> (0 < j)%nat ->
                h !! j = Some e -> c ⊑ e).
Proof.
  intros Hall. unfold sift_target.
  destruct (precedes priority h (2 * i + 1) i) eqn:Hl.
  - destruct (precedes_true _ _ _ Hall Hl) as (cl & d & Hcl & Hd & Hcld).
    destruct (precedes priority h (2 * i + 2) (2 * i + 1)) eqn:Hr.
    + destruct (precedes_true _ _ _ Hall Hr) as (cr & cl' & Hcr & Hcl' & Hcrl).
      assert (cl' = cl) as -> by congruence.
      right. split; [lia|]. split; [apply heap_parent_right|]. split; [lia|].
      exists cr, d.
      repeat split; [done..|apply prio_trans with cl; by eauto|].
      intros j e Hj Hj0 He.
      destruct (heap_parent_children i j Hj0 Hj) as [-> | ->]; simplify_eq;
        [done | apply prio_refl; by eauto].
    + right. split; [lia|]. split; [apply heap_parent_left|]. split; [lia|].
      exists cl, d. repeat split; [done..|].
      intros j e Hj Hj0 He.
      destruct (heap_parent_children i j Hj0 Hj) as [-> | ->]; simplify_eq;
        [apply prio_refl; by eauto
        |by apply (precedes_false h (2 * i + 2) (2 * i + 1))].
  - destruct (precedes priority h (2 * i + 2) i) eqn:Hr.
    + destruct (precedes_true _ _ _ Hall Hr) as (cr & d & Hcr & Hd & Hcrd).
      right. split; [lia|]. split; [apply heap_parent_right|]. split; [lia|].
      exists cr, d. repeat split; [done..|].
      intros j e Hj Hj0 He.
      destruct (heap_parent_children i j Hj0 Hj) as [-> | ->]; simplify_eq;
        [|apply prio_refl; by eauto].
      apply prio_trans with d; [by eauto..|done|].
      by apply (precedes_false h (2 * i + 1) i).
    + left. split; [done|].
      intros j a b Hj Hj0 Ha Hb.
      destruct (heap_parent_children i j Hj0 Hj) as [-> | ->];
        [by apply (precedes_false h (2 * i + 1) i)
        |by apply (precedes_false h (2 * i + 2) i)].
Qed.

Lemma sift_down_unfold (fuel : nat) (h : list Coord) (i : nat) :
  sift_down priority (S fuel) h i
  = if decide (sift_target priority h i = i) then h
    else sift_down priority fuel (swap h i (sift_target priority h i)) (sift_target priority h i).
Proof. reflexivity. Qed.

Lemma sift_down_ordered (fuel : nat) (h : list Coord) (i : nat) :
  (length h <= fuel + i)%nat ->
  priorities_in V priority h ->
  ordered_below priority h i -> heap_ordered priority (sift_down priority fuel h i).
Proof.
  revert h i. induction fuel as [|fuel IH]; intros h i Hfuel Hall [Ha Hb].
  { simpl. intros j a b Hj Hja Hjb.
    apply lookup_lt_Some in Hjb as Hlt.
    apply (Ha j); [done|lia|done..]. }
  rewrite sift_down_unfold.
  destruct (sift_target_cases h i Hall)
    as [[Hs Hmin] | (Hs & Hps & Hlt & c & d & Hc & Hd & Hcd & Hmin)].
  { rewrite decide_True by done.
    intros j a b Hj Hja Hjb.
    destruct (decide (heap_parent j = i)) as [Hpj|Hpj]; [|by apply (Ha j)].
    apply (Hmin j); [done..|]. by rewrite <- Hpj. }
  rewrite decide_False by done.
  set (s := sift_target priority h i) in *.
  apply lookup_lt_Some in Hc as Hslen.
  apply IH; [rewrite swap_length; lia | by apply priorities_in_swap |].
  split.
  - intros j a' b' Hj Hpj Hja' Hjb'.
    pose proof (heap_parent_lt j Hj) as Hpjlt.
    destruct (decide (j = s)) as [->|Hjs].
    + rewrite swap_lookup_r in Hja' by lia.
      rewrite Hps, swap_lookup_l in Hjb' by lia. by simplify_eq.
    + destruct (decide (j = i)) as [->|Hji].
      * rewrite swap_lookup_l in Hja' by lia.
        rewrite swap_lookup_ne in Hjb' by lia. simplify_eq.
        apply (Hb s); (done || lia).
      * rewrite swap_lookup_ne in Hja' by lia.
        destruct (decide (heap_parent j = i)) as [Hpji|Hpji].
        { rewrite Hpji, swap_lookup_l in Hjb' by lia. simplify_eq.
          by apply (Hmin j). }
        rewrite swap_lookup_ne in Hjb' by lia.
        by apply (Ha j).
  - intros j a' b' Hs0 Hj Hpj Hja' Hjb'.
    pose proof (heap_parent_lt j Hj) as Hpjlt.
    rewrite Hps, swap_lookup_l in Hjb' by lia.
    rewrite swap_lookup_ne in Hja' by lia. simplify_eq.
    apply (Ha j); [done|lia|done|]. by rewrite Hpj.
Qed.

Lemma heap_root_minimal (h : list Coord) (r : Coord) :
  priorities_in V priority h ->
  heap_ordered priority h -> h !! 0%nat = Some r ->
  forall i a, h !! i = Some a -> r ⊑ a.
Proof.
  intros Hall Hh Hr i. induction (lt_wf i) as [i _ IH]. intros a Hia.
  destruct (decide (i = 0%nat)) as [->|Hi].
  { simplify_eq. apply prio_refl. by eauto. }
  pose proof (heap_parent_lt i ltac:(lia)) as Hlt.
  destruct (lookup_lt_is_Some_2 h (heap_parent i)) as [b Hb].
  { apply lookup_lt_Some in Hia. lia. }
  apply prio_trans with b; [by eauto..|by apply (IH (heap_parent i))|].
  apply (Hh i); (done || lia).
Qed.

End HeapOrder.

Section HeapOperations.
Context {C : Type} `{CostType C}.

Lemma heap_ordered_ext (pr pr' : Coord -> C) (h : list Coord) :
  (forall c, c ∈ h -> pr c = pr' c) ->
  heap_ordered pr h -> heap_ordered pr' h.
Proof.
  intros Hext Hh i a b Hi Ha Hb.
  rewrite <- (Hext a), <- (Hext b) by (by eapply list_elem_of_lookup_2).
  by apply (Hh i).
Qed.

Lemma priorities_in_ext (V : C -> Prop) (pr pr' : Coord -> C) (h : list Coord) :
  (forall c, c ∈ h -> pr c = pr' c) ->
  priorities_in V pr h -> priorities_in V pr' h.
Proof.
  intros Hext Hall i a Hi.
  rewrite <- (Hext a) by (by eapply list_elem_of_lookup_2). by apply (Hall i).
Qed.

Lemma priorities_in_cons (V : C -> Prop) (pr : Coord -> C) (h : list Coord)
    (n : Coord) :
  priorities_in V pr (n :: h) <-> V (pr n) /\ priorities_in V pr h.
Proof.
  split.
  - intros Hall. split; [by apply (Hall 0%nat)|].
    intros i a Hi. by apply (Hall (S i)).
  - intros [Hn Hall] [|i] a Hi; simpl in Hi; [by simplify_eq|by apply (Hall i)].
Qed.

Lemma heap_insert_Permutation (pr : Coord -> C) (h : list Coord) (n : Coord) :
  heap_insert pr h n ≡ₚ n :: h.
Proof.
  unfold heap_insert. rewrite sift_up_Permutation.
  by rewrite Permutation_app_comm.
Qed.

Lemma heap_remove_front_empty (pr : Coord -> C) (h : list Coord) :
  heap_remove_front pr h = Fails <-> h = [].
Proof. by destruct h. Qed.

Lemma heap_remove_front_Permutation (pr : Coord -> C) (h h' : list Coord)
    (front : Coord) :
  heap_remove_front pr h = Returns (front, h') ->
  h !! 0%nat = Some front /\ h ≡ₚ front :: h'.
Proof.
  destruct h as [|a t]; [done|].
  unfold heap_remove_front. intros [= <- <-].
  split; [done|].
  rewrite sift_down_Permutation.
  set (h := a :: t).
  assert (Hlast : swap h 0 (length h - 1) !! (length h - 1)%nat = Some a).
  { rewrite swap_lookup_r by (simpl; lia). done. }
  rewrite <- (swap_Permutation h 0 (length h - 1)) at 1.
  rewrite <- (take_ge (swap h 0 (length h - 1)) (S (length h - 1)))
    at 1 by (rewrite swap_length; simpl; lia).
  rewrite (take_S_r _ _ _ Hlast).
  by rewrite Permutation_app_comm.
Qed.

Lemma heap_position_Some (h : list Coord) (n : Coord) (i : nat) :
  heap_position h n = Some i -> h !! i = Some n.
Proof.
  unfold heap_position. intros Hpos.
  apply fmap_Some in Hpos as ([i' c] & Hfind & ->).
  apply list_find_Some in Hfind as (Hi & -> & _). done.
Qed.

Lemma heap_position_None (h : list Coord) (n : Coord) :
  heap_position h n = None <-> n ∉ h.
Proof.
  unfold heap_position. rewrite fmap_None, list_find_None, Forall_forall.
  split; [intros Hall Hin; by apply (Hall n) | intros Hn c Hc ->; done].
Qed.

Variable V : C -> Prop.
Hypothesis V_order : cost_order_on V.

Lemma heap_insert_ordered (pr : Coord -> C) (h : list Coord) (n : Coord) :
  priorities_in V pr h -> V (pr n) ->
  heap_ordered pr h -> heap_ordered pr (heap_insert pr h n).
Proof.
  intros Hall Hn Hh. unfold heap_insert.
  apply (sift_up_ordered V V_order);
    [done | rewrite length_app; simpl; lia | |].
  { apply (priorities_in_Permutation V pr (n :: h));
      [by rewrite Permutation_app_comm | by apply priorities_in_cons]. }
  split.
  - intros j a b Hj Hjn Hja Hjb.
    apply lookup_lt_Some in Hja as Hlt. rewrite length_app in Hlt. simpl in Hlt.
    pose proof (heap_parent_lt j Hj).
    rewrite lookup_app_l in Hja by lia.
    rewrite lookup_app_l in Hjb by lia.
    by apply (Hh j).
  - intros j a b _ Hj Hpj Hja.
    apply lookup_lt_Some in Hja as Hlt. rewrite length_app in Hlt. simpl in Hlt.
    pose proof (heap_parent_lt j Hj). lia.
Qed.

Lemma heap_remove_front_ordered (pr : Coord -> C) (h h' : list Coord)
    (front : Coord) :
  priorities_in V pr h ->
  heap_ordered pr h ->
  heap_remove_front pr h = Returns (front, h') ->
  heap_ordered pr h' /\ minimum_of pr h front.
Proof.
  intros Hall Hh Hrem.
  destruct (heap_remove_front_Permutation pr h h' front Hrem) as [Hroot Hperm].
  split; [|split].
  - destruct h as [|a t]; [done|].
    unfold heap_remove_front in Hrem. injection Hrem as <- <-.
    set (h := a :: t). fold h in Hh, Hall.
    assert (Hlen : length h = S (length t)) by done.
    apply (sift_down_ordered V V_order); [lia| |].
    { intros j c [Hjc _]%lookup_take_Some.
      by apply (priorities_in_swap V pr h 0 (length h - 1) Hall j). }
    split; [|intros; lia].
    intros j c d Hj Hpj Hjc Hjd.
    pose proof (heap_parent_lt j Hj).
    apply lookup_take_Some in Hjc as [Hjc Hjk].
    apply lookup_take_Some in Hjd as [Hjd _].
    rewrite swap_lookup_ne in Hjc by lia.
    rewrite swap_lookup_ne in Hjd by lia.
    by apply (Hh j).
  - by eapply list_elem_of_lookup_2.
  - intros c Hc. apply list_elem_of_lookup in Hc as [i Hi].
    by eapply (heap_root_minimal V V_order).
Qed.


End HeapOperations.

(** ** Node records *)

Section NodeFacts.
Context {C : Type} `{CostType C}.

Lemma update_node_eq (na : GridNodeArray C) (n : Coord) (upd : GridNode C -> GridNode C) :
  update_node na n upd n = upd (na n).
Proof. unfold update_node. by rewrite decide_True. Qed.

Lemma update_node_ne (na : GridNodeArray C) (n c : Coord) (upd : GridNode C -> GridNode C) :
  c ≠ n -> update_node na n upd c = na c.
Proof. intros Hc. unfold update_node. by rewrite decide_False. Qed.

Lemma priority_of_update_ne (na : GridNodeArray C) (n c : Coord)
    (upd : GridNode C -> GridNode C) :
  c ≠ n -> priority_of (update_node na n upd) c = priority_of na c.
Proof. intros Hc. unfold priority_of. by rewrite update_node_ne. Qed.

Lemma priority_of_set_state (na : GridNodeArray C) (n c : Coord) (s : NodeState.t) :
  priority_of (update_node na n (set_state s)) c = priority_of na c.
Proof.
  unfold priority_of, update_node. by destruct (decide (c = n)) as [->|].
Qed.

(** The record of [n] after [open_node] or [reopen_node], and the other
    records. *)
Lemma open_node_record (m : GridMap C) (n : Coord) (g h : C) (p : Coord) :
  node (open_node m n g h p) n
  = mkGridNode NodeState.open g (cost_add g h) (Some p).
Proof. unfold node, open_node. simpl. by rewrite !update_node_eq. Qed.

Lemma open_node_others (m : GridMap C) (n : Coord) (g h : C) (p c : Coord) :
  c ≠ n -> node (open_node m n g h p) c = node m c.
Proof.
  intros Hc. unfold node, open_node. simpl. by rewrite !update_node_ne.
Qed.

Lemma open_node_open_list (m : GridMap C) (n : Coord) (g h : C) (p : Coord) :
  open_list_ (open_node m n g h p) ≡ₚ n :: open_list_ m.
Proof. unfold open_node. simpl. apply heap_insert_Permutation. Qed.

Lemma reopen_node_frontier (m : GridMap C) (n : Coord) (g h : C) (p : Coord) :
  node_array_ (reopen_node m n g h p) = node_array_ (open_node m n g h p)
  /\ open_list_ (reopen_node m n g h p) = open_list_ (open_node m n g h p).
Proof. split; reflexivity. Qed.

End NodeFacts.

(** ** The open list and the node states *)

Section Tracking.
Context {C : Type} `{CostType C}.

Lemma frontier_tracked_fresh (vm : VertexMatrix C) (diagonal : bool) :
  frontier_tracked (fresh_map vm diagonal).
Proof.
  split.
  - constructor.
  - intros c. unfold is_open, in_open_list. simpl. split; [done|].
    intros Hc. by apply elem_of_nil in Hc.
Qed.

Lemma frontier_tracked_insert (m : GridMap C) (n : Coord) (g h : C) (p : Coord) :
  frontier_tracked m -> ¬ is_open m n ->
  frontier_tracked (open_node m n g h p).
Proof.
  intros (Hnd & Hsync) Hn.
  assert (Hnin : n ∉ open_list_ m) by (intros Hin; by apply Hn, Hsync).
  split.
  - rewrite open_node_open_list. by constructor.
  - intros c. unfold is_open, in_open_list.
    rewrite open_node_open_list, elem_of_cons.
    destruct (decide (c = n)) as [->|Hc].
    + rewrite open_node_record. simpl. by split; [left|].
    + rewrite open_node_others by done. rewrite (Hsync c).
      unfold in_open_list. split; [by right | by intros [?|?]].
Qed.


(** On a non-empty open list [close_front_open_node] returns: it takes one
    entry out of the open list and closes its cell. *)
Lemma close_front_tracked (m : GridMap C) :
  frontier_tracked m -> open_node_available m = true ->
  exists m' c,
    close_front_open_node m = Returns (m', c)
    /\ open_list_ m ≡ₚ c :: open_list_ m'
    /\ state_ (node m' c) = NodeState.closed
    /\ (forall c', c' ≠ c -> node m' c' = node m c')
    /\ frontier_tracked m'.
Proof.
  intros (Hnd & Hsync) Havail.
  unfold close_front_open_node.
  destruct (heap_remove_front (priority_of (node_array_ m)) (open_list_ m))
    as [[gn ol]|] eqn:Hrem.
  2:{ apply heap_remove_front_empty in Hrem.
      unfold open_node_available in Havail. rewrite Hrem in Havail. done. }
  destruct (heap_remove_front_Permutation _ _ _ _ Hrem) as [_ Hperm].
  assert (Hnd' : NoDup (gn :: ol)) by (by rewrite <- Hperm).
  apply NoDup_cons in Hnd' as [Hgn Hnd'].
  eexists _, gn. simpl. split; [reflexivity|].
  split; [done|].
  split; [unfold node; simpl; by rewrite update_node_eq|].
  split; [intros c' Hc'; unfold node; simpl; by rewrite update_node_ne|].
  split; simpl; [done|].
  intros c. unfold is_open, in_open_list, node. simpl.
  destruct (decide (c = gn)) as [->|Hc].
  - rewrite update_node_eq. simpl. split; [done|]. intros Hin. done.
  - rewrite update_node_ne by done.
    specialize (Hsync c). unfold is_open, in_open_list, node in Hsync.
    rewrite Hsync, Hperm, elem_of_cons.
    split; [intros [?|?]; done | by right].
Qed.





End Tracking.

(** ** The heap order of the open list *)

Section Frontier.
Context {C : Type} `{CostType C}.
Variable V : C -> Prop.
Hypothesis V_order : cost_order_on V.

Lemma frontier_ordered_fresh (vm : VertexMatrix C) (diagonal : bool) :
  frontier_ordered V (fresh_map vm diagonal).
Proof. split; [intros i a b _ Hi; done | intros i a Hi; done]. Qed.

Lemma open_node_ordered (m : GridMap C) (n : Coord) (g h : C) (p : Coord) :
  frontier_ordered V m -> V (cost_add g h) -> n ∉ open_list_ m ->
  frontier_ordered V (open_node m n g h p).
Proof.
  intros [Hord Hall] Hf Hnin.
  assert (Hpr : forall c, c ∈ open_list_ m ->
            priority_of (node_array_ m) c
            = priority_of
                (update_node
                   (update_node
                      (update_node (node_array_ m) n (set_parent (Some p)))
                      n (set_g g)) n (set_f (cost_add g h))) c).
  { intros c Hc. assert (c ≠ n) by (by intros ->).
    by rewrite !priority_of_update_ne. }
  assert (Hn : V (priority_of
                (update_node
                   (update_node
                      (update_node (node_array_ m) n (set_parent (Some p)))
                      n (set_g g)) n (set_f (cost_add g h))) n)).
  { unfold priority_of. by rewrite update_node_eq. }
  pose proof (priorities_in_ext V _ _ _ Hpr Hall) as Hall'.
  split.
  - unfold open_node. simpl.
    eapply heap_ordered_ext; [intros c _; symmetry; apply priority_of_set_state|].
    apply (heap_insert_ordered V V_order); [done..|].
    by eapply heap_ordered_ext.
  - unfold costs_in, open_node. simpl.
    eapply priorities_in_ext; [intros c _; symmetry; apply priority_of_set_state|].
    eapply priorities_in_Permutation;
      [symmetry; apply heap_insert_Permutation|].
    by apply priorities_in_cons.
Qed.

Lemma close_front_ordered (m m' : GridMap C) (c : Coord) :
  frontier_ordered V m -> close_front_open_node m = Returns (m', c) ->
  minimum_of (priority_of (node_array_ m)) (open_list_ m) c
  /\ frontier_ordered V m'.
Proof.
  intros [Hord Hall]. unfold close_front_open_node.
  destruct (heap_remove_front (priority_of (node_array_ m)) (open_list_ m))
    as [[gn ol]|] eqn:Hrem; [|done].
  simpl. intros [= <- <-].
  destruct (heap_remove_front_ordered V V_order _ _ _ _ Hall Hord Hrem)
    as [Hord' Hmin].
  destruct (heap_remove_front_Permutation _ _ _ _ Hrem) as [_ Hperm].
  split; [done|]. split; [|unfold costs_in]; simpl.
  - eapply heap_ordered_ext; [|exact Hord'].
    intros c _. symmetry. apply priority_of_set_state.
  - eapply priorities_in_ext; [intros c _; symmetry; apply priority_of_set_state|].
    apply (priorities_in_Permutation V _ _ _ Hperm) in Hall.
    by apply priorities_in_cons in Hall as [_ ?].
Qed.




End Frontier.

(** ** The frontier invariant *)

Section FrontierTotal.
Context {C : Type} `{CostType C} `{!TotalCost C}.

Lemma total_cost_order : cost_order_on (fun _ : C => True).
Proof.
  split.
  - intros a b _ _. apply cost_leb_ltb.
  - intros a b c _ _ _. apply cost_leb_trans.
  - intros a b _ _. apply cost_leb_total.
Qed.

Lemma frontier_consistent_parts (m : GridMap C) :
  frontier_consistent m
  <-> frontier_tracked m /\ frontier_ordered (fun _ => True) m.
Proof.
  split.
  - intros (Hord & Hnd & Hsync).
    split; [by split | split; [done | intros i a _; exact I]].
  - intros [[Hnd Hsync] [Hord _]]. split; [done | by split].
Qed.

Lemma frontier_consistent_fresh (vm : VertexMatrix C) (diagonal : bool) :
  frontier_consistent (fresh_map vm diagonal).
Proof.
  apply frontier_consistent_parts.
  split; [apply frontier_tracked_fresh | apply frontier_ordered_fresh].
Qed.

Lemma frontier_consistent_insert (m : GridMap C) (n : Coord) (g h : C) (p : Coord) :
  frontier_consistent m -> ¬ is_open m n ->
  frontier_consistent (open_node m n g h p).
Proof.
  intros [Ht Ho]%frontier_consistent_parts Hn.
  apply frontier_consistent_parts.
  split; [by apply frontier_tracked_insert|].
  apply (open_node_ordered _ total_cost_order); [done..|].
  intros Hin. by apply Hn, Ht.
Qed.

Lemma frontier_consistent_reopen (m : GridMap C) (n : Coord) (g h : C) (p : Coord) :
  frontier_consistent m -> ¬ is_open m n ->
  frontier_consistent (reopen_node m n g h p).
Proof. apply frontier_consistent_insert. Qed.

Lemma close_front_returns (m : GridMap C) :
  frontier_consistent m -> open_node_available m = true ->
  exists m' c,
    close_front_open_node m = Returns (m', c)
    /\ minimum_of (priority_of (node_array_ m)) (open_list_ m) c
    /\ open_list_ m ≡ₚ c :: open_list_ m'
    /\ state_ (node m' c) = NodeState.closed
    /\ (forall c', c' ≠ c -> node m' c' = node m c')
    /\ frontier_consistent m'.
Proof.
  intros [Ht Ho]%frontier_consistent_parts Havail.
  destruct (close_front_tracked m Ht Havail)
    as (m' & c & Hclose & Hperm & Hclosed & Hother & Ht').
  destruct (close_front_ordered _ total_cost_order m m' c Ho Hclose)
    as [Hmin Ho'].
  exists m', c. do 5 (split; [done|]). by apply frontier_consistent_parts.
Qed.

End FrontierTotal.

(** ** The order of the cost types *)

#[export] Instance int_cost_total : TotalCost Z.
Proof.
  split; simpl.
  - intros a b. apply Z.leb_antisym.
  - intros a b c Hab Hbc. apply Z.leb_le. apply Z.leb_le in Hab, Hbc. lia.
  - intros a b. destruct (Z.leb_spec a b); [by left|right]. apply Z.leb_le. lia.
Qed.









(** ** Sequences of calls *)




(** An increase_node_priority that asks for an f-cost above the stored one
    writes the g-cost and leaves the f-cost and the open list as they are:
    the front of the open list is still a cell of minimum f-cost. *)
Example increase_priority_with_greater_f :
  (m ← run sample_map [OpenNode (0, 0) 1 0 (0, 0); OpenNode (1, 0) 2 0 (0, 0);
                        OpenNode (0, 1) 3 0 (0, 0);
                        IncreaseNodePriority (0, 0) 10 0 (0, 0)];
   r ← close_front_open_node m;
   mret (r.2, g_ (node m r.2), f_ (node m r.2), f_ (node m (1, 0)),
         open_list_ r.1))
  = Returns ((0, 0), 10, 1, 2, [(1, 0); (0, 1)]).
Proof. vm_compute. reflexivity. Qed.

(** ** The state-machine mutators *)

(** C6: open_node(n, g, h, p) on an unexplored cell n leaves the record of n
    with g-cost g, f-cost g + h, parent p and state open, adds one entry for
    n to the open list, and increases the counter of opened nodes by 1. *)
Theorem open_node_effect {C : Type} `{CostType C}
    (m : GridMap C) (n : Coord) (g h : C) (p : Coord) :
  state_ (node m n) = NodeState.unexplored ->
  let m' := open_node m n g h p in
  g_ (node m' n) = g
  /\ f_ (node m' n) = cost_add g h
  /\ parent_ (node m' n) = Some p
  /\ state_ (node m' n) = NodeState.open
  /\ open_list_ m' ≡ₚ n :: open_list_ m
  /\ nodes_opened (stats_ m') = nodes_opened (stats_ m) + 1.
Proof.
  intros _ m'. subst m'.
  rewrite open_node_record. simpl.
  repeat split. apply open_node_open_list.
Qed.

Lemma open_node_effect_witness :
  let m' := open_node sample_map (1, 0) 5 2 (0, 0) in
  g_ (node m' (1, 0)) = 5
  /\ f_ (node m' (1, 0)) = cost_add 5 2
  /\ parent_ (node m' (1, 0)) = Some (0, 0)
  /\ state_ (node m' (1, 0)) = NodeState.open
  /\ open_list_ m' ≡ₚ (1, 0) :: open_list_ sample_map
  /\ nodes_opened (stats_ m') = nodes_opened (stats_ sample_map) + 1.
Proof.
  apply (open_node_effect sample_map (1, 0) 5 2 (0, 0)).
  reflexivity.
Defined.

Lemma reopen_node_record {C : Type} `{CostType C}
    (m : GridMap C) (n : Coord) (g h : C) (p : Coord) :
  node (reopen_node m n g h p) n
  = mkGridNode NodeState.open g (cost_add g h) (Some p).
Proof. exact (open_node_record m n g h p). Qed.

Lemma close_front_record {C : Type} `{CostType C} (m m' : GridMap C) (c : Coord) :
  close_front_open_node m = Returns (m', c) ->
  node m' c = set_state NodeState.closed (node m c)
  /\ stats_ m' = stats_closed (stats_ m).
Proof.
  unfold close_front_open_node.
  destruct (heap_remove_front _ _) as [[gn ol]|]; [|done].
  intros [= <- <-]. unfold node. simpl. by rewrite update_node_eq.
Qed.

(** C7: when a cell is opened with g = 5, then closed by
    close_front_open_node, then reopened with g = 3, the cell is closed before
    the reopen call and open after it, its g-cost is 3, and the reopen call
    increases the counter of reopened nodes by 1 and leaves the counter of
    opened nodes unchanged. *)
Theorem reopen_after_close {C : Type} `{CostType C}
    (m m2 : GridMap C) (a : Coord) (h h' : C) (p p' : Coord) :
  close_front_open_node (open_node m a (cost_of_int 5) h p) = Returns (m2, a) ->
  let m1 := open_node m a (cost_of_int 5) h p in
  let m3 := reopen_node m2 a (cost_of_int 3) h' p' in
  g_ (node m1 a) = cost_of_int 5
  /\ state_ (node m1 a) = NodeState.open
  /\ state_ (node m2 a) = NodeState.closed
  /\ g_ (node m2 a) = cost_of_int 5
  /\ state_ (node m3 a) = NodeState.open
  /\ g_ (node m3 a) = cost_of_int 3
  /\ nodes_reopened (stats_ m3) = nodes_reopened (stats_ m2) + 1
  /\ nodes_opened (stats_ m3) = nodes_opened (stats_ m2).
Proof.
  intros Hclose m1 m3. subst m1 m3.
  destruct (close_front_record _ _ _ Hclose) as [-> _].
  rewrite reopen_node_record, !open_node_record. done.
Qed.

Lemma reopen_after_close_witness :
  exists m2 : GridMap Z,
    close_front_open_node (open_node sample_map (1, 1) 5 0 (0, 0))
      = Returns (m2, (1, 1))
    /\ state_ (node m2 (1, 1)) = NodeState.closed
    /\ state_ (node (reopen_node m2 (1, 1) 3 0 (1, 0)) (1, 1)) = NodeState.open
    /\ g_ (node (reopen_node m2 (1, 1) 3 0 (1, 0)) (1, 1)) = 3
    /\ nodes_reopened (stats_ (reopen_node m2 (1, 1) 3 0 (1, 0)))
       = nodes_reopened (stats_ m2) + 1
    /\ nodes_opened (stats_ (reopen_node m2 (1, 1) 3 0 (1, 0)))
       = nodes_opened (stats_ m2).
Proof.
  destruct (close_front_open_node (open_node sample_map (1, 1) 5 0 (0, 0)))
    as [[m2 c]|] eqn:Hclose; [|vm_compute in Hclose; discriminate].
  assert (c = (1, 1)) as ->.
  { vm_compute in Hclose. by injection Hclose as _ <-. }
  exists m2. split; [reflexivity|].
  pose proof (reopen_after_close (C := Z) sample_map m2 (1, 1) 0 0 (0, 0) (1, 0) Hclose)
    as (_ & _ & H3 & _ & H5 & H6 & H7 & H8).
  repeat split; assumption.
Defined.

(** C10: open_node(n, g, h, p) and reopen_node(n, g, h, p) leave the same
    node records (parent p, g-cost g, f-cost g + h and state open for n, the
    other records untouched) and the same open list (one entry for n more
    than before); they differ only in the counter they increase, opened nodes
    for the one and reopened nodes for the other. *)
Theorem open_and_reopen_differ_in_counter_only {C : Type} `{CostType C}
    (m : GridMap C) (n : Coord) (g h : C) (p : Coord) :
  let mo := open_node m n g h p in
  let mr := reopen_node m n g h p in
  node_array_ mo = node_array_ mr
  /\ open_list_ mo = open_list_ mr
  /\ vertex_matrix_ mo = vertex_matrix_ mr
  /\ enable_diagonal_ mo = enable_diagonal_ mr
  /\ node mo n = mkGridNode NodeState.open g (cost_add g h) (Some p)
  /\ (forall c, c ≠ n -> node mo c = node m c)
  /\ open_list_ mo ≡ₚ n :: open_list_ m
  /\ stats_ mo = mkSearchStats (nodes_opened (stats_ m) + 1)
                   (nodes_reopened (stats_ m)) (nodes_closed (stats_ m))
                   (nodes_priority_increased (stats_ m))
  /\ stats_ mr = mkSearchStats (nodes_opened (stats_ m))
                   (nodes_reopened (stats_ m) + 1) (nodes_closed (stats_ m))
                   (nodes_priority_increased (stats_ m)).
Proof.
  intros mo mr. subst mo mr.
  split; [reflexivity|]. split; [reflexivity|].
  split; [reflexivity|]. split; [reflexivity|].
  split; [apply open_node_record|].
  split; [intros c Hc; by apply open_node_others|].
  split; [apply open_node_open_list|].
  split; reflexivity.
Qed.

(** C5, as stated, fails: reopen_node on a cell that is not closed is not
    reported.  On a fresh map the cell (0,0) is unexplored; the call
    reopen_node((0,0), 3, 0, (0,0)) returns normally, and afterwards the cell
    is open, has an entry in the open list and counts as a reopened node. *)
Lemma reopen_unexplored_is_tolerated :
  state_ (node sample_map (0, 0)) = NodeState.unexplored
  /\ call sample_map (ReopenNode (0, 0) 3 0 (0, 0))
     = Returns (reopen_node sample_map (0, 0) 3 0 (0, 0))
  /\ state_ (node (reopen_node sample_map (0, 0) 3 0 (0, 0)) (0, 0))
     = NodeState.open
  /\ open_list_ (reopen_node sample_map (0, 0) 3 0 (0, 0)) = [(0, 0)]
  /\ nodes_reopened (stats_ (reopen_node sample_map (0, 0) 3 0 (0, 0))) = 1.
Proof. repeat split. Qed.

(** C5, amended: neither function looks at the state of the cell.
    reopen_node on a cell in any state that has no entry in the open list
    (an unexplored cell, say) returns normally after the updates it makes on a
    closed cell: parent, g-cost, f-cost g + h, state open, one more entry in
    the open list, one more reopened node.  increase_node_priority writes
    parent and g-cost and hands the cell to the open list; it fails exactly
    when increase_priority of the open list does, which is the case for a
    cell that has no entry in the open list. *)
Theorem reopen_and_increase_do_not_check_state {C : Type} `{CostType C}
    (m : GridMap C) (n : Coord) (g h : C) (p : Coord) :
  n ∉ open_list_ m ->
  call m (ReopenNode n g h p) = Returns (reopen_node m n g h p)
  /\ node (reopen_node m n g h p) n
     = mkGridNode NodeState.open g (cost_add g h) (Some p)
  /\ open_list_ (reopen_node m n g h p) ≡ₚ n :: open_list_ m
  /\ nodes_reopened (stats_ (reopen_node m n g h p))
     = nodes_reopened (stats_ m) + 1
  /\ increase_node_priority m n g h p = Fails
  /\ forall m' : GridMap C,
       returned (increase_node_priority m' n g h p)
       = returned (heap_increase_priority
                     (update_node
                        (update_node (node_array_ m') n (set_parent (Some p)))
                        n (set_g g))
                     (open_list_ m') n (cost_add g h)).
Proof.
  intros Hout.
  split; [reflexivity|].
  split; [apply reopen_node_record|].
  split; [apply open_node_open_list|].
  split; [reflexivity|].
  split.
  { unfold increase_node_priority, heap_increase_priority.
    apply heap_position_None in Hout. by rewrite Hout. }
  intros m'. unfold increase_node_priority.
  by destruct (heap_increase_priority _ _ _ _) as [[na ol]|].
Qed.

Lemma reopen_and_increase_do_not_check_state_witness :
  call sample_map (ReopenNode (0, 0) 3 0 (0, 0))
  = Returns (reopen_node sample_map (0, 0) 3 0 (0, 0))
  /\ node (reopen_node sample_map (0, 0) 3 0 (0, 0)) (0, 0)
     = mkGridNode NodeState.open 3 (cost_add 3 0) (Some (0, 0)).
Proof.
  assert (Hout : ((0, 0) : Coord) ∉ open_list_ sample_map) by apply not_elem_of_nil.
  pose proof (reopen_and_increase_do_not_check_state
                sample_map (0, 0) 3 0 (0, 0) Hout) as (Hcall & Hrec & _).
  split; [exact Hcall | exact Hrec].
Defined.

(** ** Path extraction *)

Section PathFacts.
Context {C : Type} `{CostType C}.

Lemma parent_chain_links (na : GridNodeArray C) (n : Coord) (l : list Coord)
    (s : Coord) :
  parent_chain na n l s ->
  parent_ (na s) = Some s
  /\ (forall c, c ∈ l -> exists q, parent_ (na c) = Some q /\ q ≠ c)
  /\ (forall i a, l !! i = Some a ->
        parent_ (na a) = Some (default s (l !! S i)))
  /\ (l = [] /\ n = s \/ head l = Some n /\ n ≠ s).
Proof.
  induction 1 as [s Hs | p q l s Hp Hq Hchain (IHs & IHl & IHi & IHh)].
  - split; [done|]. split; [by intros c Hc%elem_of_nil|].
    split; [by intros [|i] a|]. by left.
  - assert (Hps : p ≠ s) by (intros ->; congruence).
    split; [done|]. split; [|split].
    + intros c [->|Hc]%elem_of_cons; [eauto | by apply IHl].
    + intros [|i] a Hi; simplify_eq/=; [|by apply IHi].
      rewrite Hp. f_equal.
      destruct IHh as [[-> ->] | [Hhead _]]; [done|].
      destruct l; by simplify_eq/=.
    + by right.
Qed.

Lemma parent_chain_end_outside (na : GridNodeArray C) (n : Coord)
    (l : list Coord) (s : Coord) :
  parent_chain na n l s -> s ∉ l.
Proof.
  intros (Hs & Hl & _)%parent_chain_links Hin.
  destruct (Hl s Hin) as (q & Hq & Hne). congruence.
Qed.



End PathFacts.




(** * Further properties *)

(** ** Further facts on step weights *)

Lemma wrap_range (z : Z) : - 2 ^ 31 <= wrap z < 2 ^ 31.
Proof. unfold wrap. pose proof (Z.mod_pos_bound (z + 2 ^ 31) (2 ^ 32)). lia. Qed.

Lemma wrap_congruent (z : Z) : exists k, wrap z = z + k * 2 ^ 32.
Proof.
  exists (- ((z + 2 ^ 31) / 2 ^ 32)). unfold wrap.
  pose proof (Z.div_mod (z + 2 ^ 31) (2 ^ 32)). lia.
Qed.

Lemma wrap_unique (z r : Z) (k : Z) :
  - 2 ^ 31 <= r < 2 ^ 31 -> r = z + k * 2 ^ 32 -> wrap z = r.
Proof.
  intros Hr Hk. destruct (wrap_congruent z) as [k' Hk'].
  pose proof (wrap_range z). lia.
Qed.

Lemma int_abs_sub_sym (a b : Z) :
  int_abs (int_sub a b) = int_abs (int_sub b a).
Proof.
  unfold int_abs, int_sub.
  destruct (wrap_congruent (a - b)) as [k Hk].
  pose proof (wrap_range (a - b)) as Hr.
  destruct (decide (wrap (a - b) = - 2 ^ 31)) as [Hmin|Hmin].
  - rewrite (wrap_unique (b - a) (- 2 ^ 31) (- k - 1)) by lia.
    by rewrite Hmin.
  - rewrite (wrap_unique (b - a) (- wrap (a - b)) (- k)) by lia.
    by rewrite Z.abs_opp.
Qed.

Lemma edge_span_sym (c0 c1 : Coord) : edge_span c0 c1 = edge_span c1 c0.
Proof.
  unfold edge_span.
  by rewrite (int_abs_sub_sym (y c1)), (int_abs_sub_sym (x c1)).
Qed.

(** X1: the step weight does not depend on the direction of the move:
    edge_weight(c0, c1) and edge_weight(c1, c0) return the same weight, or
    both fail, for all coordinates. *)
Theorem edge_weight_symmetric {C : Type} `{CostType C} (c0 c1 : Coord) :
  edge_weight (C := C) c0 c1 = edge_weight c1 c0.
Proof. unfold edge_weight. by rewrite edge_span_sym. Qed.

Lemma int_abs_jump (a o : Z) :
  - 2 ^ 31 < o < 2 ^ 31 -> int_abs (int_sub (int_add a o) a) = Z.abs o.
Proof.
  intros Ho. unfold int_abs, int_sub, int_add.
  rewrite wrap_sub_wrap_l. replace (a + o - a) with o by lia.
  rewrite (wrap_in_range o) by lia. apply wrap_in_range. lia.
Qed.

(** X2: edge_weight looks at the Manhattan distance only.  It fails (its
    assertion) for a move from a cell to itself, it weighs a straight jump
    over two cells like a diagonal step, and it fails for every offset
    (ox, oy) of Manhattan length 3 or more. *)
Theorem edge_weight_by_distance_only {C : Type} `{CostType C}
    (c : Coord) (ox oy : Z) :
  - 2 ^ 30 < ox < 2 ^ 30 -> - 2 ^ 30 < oy < 2 ^ 30 ->
  let c' := (int_add (x c) ox, int_add (y c) oy) in
  (Z.abs ox + Z.abs oy = 0 -> edge_weight (C := C) c c' = Fails)
  /\ (Z.abs ox + Z.abs oy = 1 -> edge_weight c c' = Returns kStraightEdgeWeight)
  /\ (Z.abs ox + Z.abs oy = 2 -> edge_weight c c' = Returns kDiagonalEdgeWeight)
  /\ (3 <= Z.abs ox + Z.abs oy -> edge_weight (C := C) c c' = Fails).
Proof.
  intros Hx Hy c'. subst c'.
  assert (Hspan : edge_span c (int_add (x c) ox, int_add (y c) oy)
                  = Z.abs oy + Z.abs ox).
  { unfold edge_span, x, y. simpl. rewrite !int_abs_jump by lia.
    unfold int_add. apply wrap_in_range. lia. }
  unfold edge_weight. rewrite Hspan.
  repeat split; intros Hd.
  - rewrite (proj2 (Z.eqb_neq _ 2)), (proj2 (Z.eqb_neq _ 1)) by lia. done.
  - rewrite (proj2 (Z.eqb_neq _ 2)), (proj2 (Z.eqb_eq _ 1)) by lia. done.
  - rewrite (proj2 (Z.eqb_eq _ 2)) by lia. done.
  - rewrite (proj2 (Z.eqb_neq _ 2)), (proj2 (Z.eqb_neq _ 1)) by lia. done.
Qed.

Lemma edge_weight_by_distance_only_witness :
  edge_weight (C := float) (3, 3) (3, 3) = Fails
  /\ edge_weight (C := float) (3, 3) (5, 3) = Returns 1.4143%float
  /\ edge_weight (C := float) (3, 3) (5, 4) = Fails.
Proof.
  assert (H0 : - 2 ^ 30 < 0 < 2 ^ 30) by lia.
  assert (H1 : - 2 ^ 30 < 1 < 2 ^ 30) by lia.
  assert (H2 : - 2 ^ 30 < 2 < 2 ^ 30) by lia.
  pose proof (edge_weight_by_distance_only (C := float) (3, 3) 0 0 H0 H0) as (Ha & _).
  pose proof (edge_weight_by_distance_only (C := float) (3, 3) 2 0 H2 H0) as (_ & _ & Hb & _).
  pose proof (edge_weight_by_distance_only (C := float) (3, 3) 2 1 H2 H1) as (_ & _ & _ & Hc).
  split; [apply Ha; reflexivity|]. split; [apply Hb; reflexivity | apply Hc; vm_compute; discriminate].
Defined.

(** ** Further facts on edges *)

Lemma int_add_inj (a o1 o2 : Z) :
  - 2 ^ 31 <= o1 < 2 ^ 31 -> - 2 ^ 31 <= o2 < 2 ^ 31 ->
  int_add a o1 = int_add a o2 -> o1 = o2.
Proof.
  unfold int_add. intros H1 H2 Heq.
  destruct (wrap_congruent (a + o1)) as [k1 Hk1].
  destruct (wrap_congruent (a + o2)) as [k2 Hk2]. lia.
Qed.

Lemma int_add_back (a o : Z) :
  in_int a -> int_add (int_add a o) (- o) = a.
Proof.
  unfold in_int, int_add. intros Ha.
  destruct (wrap_congruent (a + o)) as [k Hk].
  apply (wrap_unique _ a (- k)); lia.
Qed.

Lemma neighbor_steps_small (diagonal : bool) (o : Z * Z) :
  o ∈ neighbor_steps diagonal ->
  -1 <= o.1 <= 1 /\ -1 <= o.2 <= 1 /\ (o.1 ≠ 0 \/ o.2 ≠ 0).
Proof.
  intros Ho. assert (Ho' : o ∈ neighbor_steps true).
  { destruct diagonal; [done | by apply neighbor_steps_4_8]. }
  simpl in Ho'. rewrite !elem_of_cons, elem_of_nil in Ho'.
  repeat match goal with
         | Hor : _ \/ _ |- _ => destruct Hor as [Hor | Hor]
         | Hf : False |- _ => destruct Hf
         end; subst o; simpl; lia.
Qed.

Lemma neighbor_steps_opposite (diagonal : bool) (o : Z * Z) :
  o ∈ neighbor_steps diagonal -> (- o.1, - o.2) ∈ neighbor_steps diagonal.
Proof.
  destruct diagonal; simpl; rewrite !elem_of_cons, !elem_of_nil; intros Ho;
    repeat match goal with
           | Hor : _ \/ _ |- _ => destruct Hor as [Hor | Hor]
           | Hf : False |- _ => destruct Hf
           end; subst o; simpl; auto 12.
Qed.

Lemma neighbor_steps_NoDup (diagonal : bool) : NoDup (neighbor_steps diagonal).
Proof. destruct diagonal; by apply (bool_decide_unpack _). Qed.

Lemma step_to_inj (diagonal : bool) (n : Coord) (o1 o2 : Z * Z) :
  o1 ∈ neighbor_steps diagonal -> o2 ∈ neighbor_steps diagonal ->
  step_to n o1 = step_to n o2 -> o1 = o2.
Proof.
  intros H1%neighbor_steps_small H2%neighbor_steps_small.
  unfold step_to. intros [= Hx Hy].
  apply int_add_inj in Hx; [|lia..]. apply int_add_inj in Hy; [|lia..].
  destruct o1, o2; simpl in *; congruence.
Qed.

Lemma step_to_moves (diagonal : bool) (n : Coord) (o : Z * Z) :
  o ∈ neighbor_steps diagonal -> step_to n o ≠ n.
Proof.
  intros (Hx & Hy & Hnz)%neighbor_steps_small. unfold step_to.
  destruct n as [a b]. unfold x, y, int_add. simpl. intros [= Ha Hb].
  destruct (wrap_congruent (a + o.1)) as [k1 Hk1].
  destruct (wrap_congruent (b + o.2)) as [k2 Hk2]. lia.
Qed.

Lemma omap_length_le {A B : Type} (f : A -> option B) (l : list A) :
  (length (omap f l) <= length l)%nat.
Proof.
  induction l as [|a l IH]; [done|].
  rewrite length_cons. destruct (f a) as [b|] eqn:Hf.
  - rewrite (omap_cons_Some f a b l Hf), length_cons. lia.
  - rewrite (omap_cons_None f a l Hf). lia.
Qed.

Section EdgesMore.
Context {C : Type} `{CostType C}.

Lemma is_passable_in_grid (vm : VertexMatrix C) (c : Coord) :
  is_passable vm c = true -> in_grid vm c = true.
Proof.
  unfold is_passable, weight. by destruct (in_grid vm c).
Qed.

Lemma edges_as_omap (m : GridMap C) (n : Coord) :
  edges m n
  = Returns (omap (edge_along m n) (neighbor_steps (enable_diagonal_ m))).
Proof.
  unfold edges. rewrite coord_neighbors_steps.
  rewrite edges_loop_steps; [done|].
  intros o. destruct (enable_diagonal_ m); [done | apply neighbor_steps_4_8].
Qed.

Lemma edge_along_same_terrain (m m' : GridMap C) (n : Coord) (o : Z * Z) :
  vertex_matrix_ m' = vertex_matrix_ m -> edge_along m' n o = edge_along m n o.
Proof. intros Hvm. unfold edge_along. by rewrite Hvm. Qed.

Lemma call_keeps_terrain (m m' : GridMap C) (c : Call C) :
  call m c = Returns m' ->
  vertex_matrix_ m' = vertex_matrix_ m /\ enable_diagonal_ m' = enable_diagonal_ m.
Proof.
  destruct c as [n g h p|n g h p|n g h p|]; simpl.
  - by intros [= <-].
  - by intros [= <-].
  - unfold increase_node_priority.
    destruct (heap_increase_priority _ _ _ _) as [[na ol]|]; [|done].
    by intros [= <-].
  - unfold close_front_open_node.
    destruct (heap_remove_front _ _) as [[gn ol]|]; [|done].
    by intros [= <-].
Qed.

Lemma run_keeps_terrain (m m' : GridMap C) (cs : list (Call C)) :
  run m cs = Returns m' ->
  vertex_matrix_ m' = vertex_matrix_ m /\ enable_diagonal_ m' = enable_diagonal_ m.
Proof.
  revert m. induction cs as [|c cs IH]; intros m; simpl.
  - by intros [= <-].
  - destruct (call m c) as [m1|] eqn:Hcall; [|done]. simpl.
    intros Hrun. destruct (IH _ Hrun) as [-> ->].
    by apply call_keeps_terrain in Hcall.
Qed.

End EdgesMore.

(** X3: edges(n) always returns, with at most 8 edges (4 without diagonal
    moves); the edges all start at n, lead to pairwise different cells, none
    of which is n itself, and every target is a passable cell of the grid. *)
Theorem edges_are_distinct_moves {C : Type} `{CostType C}
    (m : GridMap C) (n : Coord) :
  exists es : list (Edge C),
    edges m n = Returns es
    /\ (length es <= if enable_diagonal_ m then 8 else 4)%nat
    /\ NoDup (map edge_to es)
    /\ (n ∉ map edge_to es)
    /\ Forall (fun e : Edge C =>
                 edge_from e = n
                 /\ is_passable (vertex_matrix_ m) (edge_to e) = true
                 /\ in_grid (vertex_matrix_ m) (edge_to e) = true) es.
Proof.
  eexists. split; [apply edges_as_omap|].
  set (steps := neighbor_steps (enable_diagonal_ m)).
  split.
  { etrans; [apply omap_length_le|]. subst steps.
    by destruct (enable_diagonal_ m). }
  rewrite omap_edge_along_targets.
  split.
  { apply NoDup_filter, NoDup_fmap_2_strong; [|apply neighbor_steps_NoDup].
    intros o1 o2 H1 H2. by apply (step_to_inj (enable_diagonal_ m)). }
  split.
  { intros [_ (o & Hn & Ho)%list_elem_of_fmap]%list_elem_of_filter.
    by apply (step_to_moves (enable_diagonal_ m) n o). }
  apply Forall_forall. intros e (o & Ho & He)%list_elem_of_omap.
  unfold edge_along in He. cbv zeta in He.
  destruct (weight (vertex_matrix_ m) (step_to n o)) as [w|]; [|done].
  destruct (is_passable (vertex_matrix_ m) (step_to n o)) eqn:Hp; [|done].
  injection He as <-. simpl.
  split; [done|]. split; [done|]. by apply is_passable_in_grid.
Qed.

(** X4: the graph does not change during a search: after every sequence of
    open_node, reopen_node, increase_node_priority and close_front_open_node
    calls that returns, edges(n) is what it was before, for every n. *)
Theorem edges_unchanged_by_calls {C : Type} `{CostType C}
    (m m' : GridMap C) (cs : list (Call C)) (n : Coord) :
  run m cs = Returns m' -> edges m' n = edges m n.
Proof.
  intros [Hvm Hd]%run_keeps_terrain.
  rewrite !edges_as_omap, Hd.
  f_equal. apply list_omap_ext, Forall2_same_length_lookup.
  split; [done|]. intros i o1 o2 H1 H2. simplify_eq.
  by apply edge_along_same_terrain.
Qed.

Lemma edges_unchanged_by_calls_witness :
  edges (open_node sample_map (0, 0) 0 2 (0, 0)) (1, 1) = edges sample_map (1, 1).
Proof.
  apply (edges_unchanged_by_calls sample_map _ [OpenNode (0, 0) 0 2 (0, 0)]).
  reflexivity.
Defined.

(** X5: the neighbour relation is symmetric: for a cell c with int
    coordinates, every cell that coord_8_neighbors (coord_4_neighbors) gives
    for c has c among its own 8 (4) neighbours, also where the coordinates
    wrap around. *)
Theorem neighbors_symmetric (c c' : Coord) :
  in_int (x c) -> in_int (y c) ->
  (c' ∈ coord_8_neighbors c -> c ∈ coord_8_neighbors c')
  /\ (c' ∈ coord_4_neighbors c -> c ∈ coord_4_neighbors c').
Proof.
  intros Hx Hy.
  assert (Hsym : forall diagonal,
             c' ∈ map (step_to c) (neighbor_steps diagonal) ->
             c ∈ map (step_to c') (neighbor_steps diagonal)).
  { intros diagonal (o & -> & Ho)%list_elem_of_fmap.
    apply list_elem_of_fmap. exists (- o.1, - o.2).
    split; [|by apply neighbor_steps_opposite].
    unfold step_to, x, y. simpl.
    fold (x c) (y c). rewrite !int_add_back by done. by destruct c. }
  split.
  - rewrite (coord_neighbors_steps true c), (coord_neighbors_steps true c').
    apply Hsym.
  - rewrite (coord_neighbors_steps false c), (coord_neighbors_steps false c').
    apply Hsym.
Qed.

Lemma neighbors_symmetric_witness :
  ((2 ^ 31 - 1, 0) : Coord) ∈ coord_8_neighbors (- 2 ^ 31, 1).
Proof.
  assert (Hx : in_int (x (2 ^ 31 - 1, 0))) by (unfold in_int, x; simpl; lia).
  assert (Hy : in_int (y (2 ^ 31 - 1, 0))) by (unfold in_int, y; simpl; lia).
  apply (neighbors_symmetric (2 ^ 31 - 1, 0) (- 2 ^ 31, 1) Hx Hy).
  apply list_elem_of_In. vm_compute. auto 12.
Defined.

(** ** Accounting along sequences of calls *)

Section CallFacts.
Context {C : Type} `{CostType C}.

Lemma increase_node_priority_inv (m m' : GridMap C) (n : Coord) (g h : C) (p : Coord) :
  increase_node_priority m n g h p = Returns m' ->
  n ∈ open_list_ m
  /\ state_ (node m' n) = state_ (node m n)
  /\ g_ (node m' n) = g
  /\ parent_ (node m' n) = Some p
  /\ (forall c, c ≠ n -> node m' c = node m c)
  /\ open_list_ m' ≡ₚ open_list_ m
  /\ stats_ m' = stats_priority_increased (stats_ m).
Proof.
  unfold increase_node_priority, heap_increase_priority.
  destruct (heap_position (open_list_ m) n) as [i|] eqn:Hpos; [|done].
  destruct (cost_leb _ _); intros [= <-];
    (split; [by eapply list_elem_of_lookup_2, heap_position_Some|]);
    unfold node; simpl; rewrite !update_node_eq; (do 3 (split; [done|]));
    (split; [intros c Hc; by rewrite !update_node_ne|]).
  - split; [apply sift_up_Permutation | done].
  - done.
Qed.

Lemma close_front_inv (m m' : GridMap C) (gn : Coord) :
  close_front_open_node m = Returns (m', gn) ->
  gn ∈ open_list_ m
  /\ node m' gn = set_state NodeState.closed (node m gn)
  /\ (forall c, c ≠ gn -> node m' c = node m c)
  /\ open_list_ m ≡ₚ gn :: open_list_ m'
  /\ stats_ m' = stats_closed (stats_ m).
Proof.
  unfold close_front_open_node.
  destruct (heap_remove_front _ _) as [[gn' ol]|] eqn:Hrem; [|done].
  intros [= <- <-]. simpl.
  destruct (heap_remove_front_Permutation _ _ _ _ Hrem) as [Hroot Hperm].
  split; [by eapply list_elem_of_lookup_2|].
  split; [unfold node; simpl; by rewrite update_node_eq|].
  split; [intros c Hc; unfold node; simpl; by rewrite update_node_ne | done].
Qed.

Lemma call_close_front (m m' : GridMap C) :
  call m CloseFrontOpenNode = Returns m' ->
  exists gn, close_front_open_node m = Returns (m', gn).
Proof.
  simpl. destruct (close_front_open_node m) as [[m1 gn]|]; [|done].
  intros [= <-]. by exists gn.
Qed.

Lemma call_accounting (m m' : GridMap C) (c : Call C) :
  call m c = Returns m' ->
  nodes_opened (stats_ m')
    = nodes_opened (stats_ m) + (if is_open_call c then 1 else 0)
  /\ nodes_reopened (stats_ m')
     = nodes_reopened (stats_ m) + (if is_reopen_call c then 1 else 0)
  /\ nodes_priority_increased (stats_ m')
     = nodes_priority_increased (stats_ m) + (if is_increase_call c then 1 else 0)
  /\ nodes_closed (stats_ m')
     = nodes_closed (stats_ m) + (if is_close_call c then 1 else 0)
  /\ Z.of_nat (length (open_list_ m'))
     = Z.of_nat (length (open_list_ m))
       + (if is_open_call c then 1 else 0)
       + (if is_reopen_call c then 1 else 0)
       - (if is_close_call c then 1 else 0).
Proof.
  destruct c as [n g h p|n g h p|n g h p|].
  - intros [= <-]. rewrite open_node_open_list. simpl. lia.
  - intros [= <-].
    rewrite (proj2 (reopen_node_frontier m n g h p)), open_node_open_list.
    simpl. lia.
  - intros (_ & _ & _ & _ & _ & Hperm & ->)%increase_node_priority_inv.
    rewrite Hperm. simpl. lia.
  - intros [gn (_ & _ & _ & Hperm & ->)%close_front_inv]%call_close_front.
    rewrite Hperm. simpl. lia.
Qed.

End CallFacts.

(** X6: the statistics count the calls.  After a sequence of calls that
    returns, each of the four counters has grown by the number of calls of
    its kind (open_node, reopen_node, increase_node_priority,
    close_front_open_node), and the open list has grown by the number of
    open_node and reopen_node calls less the number of close_front_open_node
    calls. *)
Theorem stats_count_calls {C : Type} `{CostType C}
    (m m' : GridMap C) (cs : list (Call C)) :
  run m cs = Returns m' ->
  nodes_opened (stats_ m')
    = nodes_opened (stats_ m) + count_calls is_open_call cs
  /\ nodes_reopened (stats_ m')
     = nodes_reopened (stats_ m) + count_calls is_reopen_call cs
  /\ nodes_priority_increased (stats_ m')
     = nodes_priority_increased (stats_ m) + count_calls is_increase_call cs
  /\ nodes_closed (stats_ m')
     = nodes_closed (stats_ m) + count_calls is_close_call cs
  /\ Z.of_nat (length (open_list_ m'))
     = Z.of_nat (length (open_list_ m))
       + count_calls is_open_call cs + count_calls is_reopen_call cs
       - count_calls is_close_call cs.
Proof.
  revert m. induction cs as [|c cs IH]; intros m; simpl.
  { intros [= <-]. lia. }
  destruct (call m c) as [m1|] eqn:Hcall; [|done]. simpl.
  intros Hrun.
  destruct (call_accounting _ _ _ Hcall) as (H1 & H2 & H3 & H4 & H5).
  destruct (IH _ Hrun) as (I1 & I2 & I3 & I4 & I5).
  rewrite I1, I2, I3, I4, I5, H1, H2, H3, H4, H5. lia.
Qed.

Lemma stats_count_calls_witness :
  exists m' : GridMap Z,
    run sample_map sample_calls = Returns m'
    /\ nodes_opened (stats_ m') = 4
    /\ nodes_reopened (stats_ m') = 1
    /\ nodes_priority_increased (stats_ m') = 1
    /\ nodes_closed (stats_ m') = 2
    /\ Z.of_nat (length (open_list_ m')) = 3.
Proof.
  destruct (run sample_map sample_calls) as [m'|] eqn:Hrun;
    [|vm_compute in Hrun; discriminate].
  exists m'. split; [reflexivity|].
  destruct (stats_count_calls sample_map m' sample_calls Hrun)
    as (H1 & H2 & H3 & H4 & H5).
  rewrite H1, H2, H3, H4, H5. repeat split.
Defined.

Lemma open_list_balance {C : Type} `{CostType C}
    (cs : list (Call C)) (m0 m : GridMap C) :
  run m0 cs = Returns m ->
  Z.of_nat (length (open_list_ m))
    - (nodes_opened (stats_ m) + nodes_reopened (stats_ m)
       - nodes_closed (stats_ m))
  = Z.of_nat (length (open_list_ m0))
    - (nodes_opened (stats_ m0) + nodes_reopened (stats_ m0)
       - nodes_closed (stats_ m0)).
Proof.
  revert m0. induction cs as [|c cs IH]; intros m0; simpl.
  - by intros [= <-].
  - destruct (call m0 c) as [m1|] eqn:Hcall; [|done]. simpl.
    intros Hrun. rewrite (IH _ Hrun).
    destruct (call_accounting _ _ _ Hcall) as (H1 & H2 & _ & H4 & H5).
    rewrite H1, H2, H4, H5. lia.
Qed.

(** X7: on a map that was fresh before a sequence of calls that returned,
    the open list holds nodes_opened + nodes_reopened - nodes_closed cells,
    and open_node_available() is true exactly when nodes_closed is below
    nodes_opened + nodes_reopened. *)
Theorem open_node_available_by_stats {C : Type} `{CostType C}
    (vm : VertexMatrix C) (diagonal : bool) (cs : list (Call C)) (m : GridMap C) :
  run (fresh_map vm diagonal) cs = Returns m ->
  Z.of_nat (length (open_list_ m))
    = nodes_opened (stats_ m) + nodes_reopened (stats_ m) - nodes_closed (stats_ m)
  /\ (open_node_available m = true
      <-> nodes_closed (stats_ m)
          < nodes_opened (stats_ m) + nodes_reopened (stats_ m)).
Proof.
  intros Hrun. pose proof (open_list_balance _ _ _ Hrun) as Hbal.
  simpl in Hbal.
  split; [lia|].
  unfold open_node_available. rewrite negb_true_iff, bool_decide_eq_false.
  destruct (open_list_ m) as [|c l]; simpl in Hbal.
  - split; [done | lia].
  - split; [lia | done].
Qed.

Lemma open_node_available_by_stats_witness :
  exists m : GridMap Z,
    run (fresh_map sample_matrix true) sample_calls = Returns m
    /\ open_node_available m = true
    /\ nodes_closed (stats_ m) < nodes_opened (stats_ m) + nodes_reopened (stats_ m).
Proof.
  destruct (run (fresh_map sample_matrix true) sample_calls) as [m|] eqn:Hrun;
    [|vm_compute in Hrun; discriminate].
  exists m. split; [reflexivity|].
  destruct (open_node_available_by_stats sample_matrix true sample_calls m Hrun)
    as [Hlen Havail].
  assert (Hlt : nodes_closed (stats_ m)
                < nodes_opened (stats_ m) + nodes_reopened (stats_ m)).
  { vm_compute in Hrun. injection Hrun as <-. vm_compute. reflexivity. }
  split; [by apply Havail | exact Hlt].
Defined.

Section WriterFacts.
Context {C : Type} `{CostType C}.

Lemma call_writes (m m' : GridMap C) (c : Call C) (n : Coord) :
  call m c = Returns m' ->
  match written_by c n with
  | Some (g, p) => g_ (node m' n) = g /\ parent_ (node m' n) = Some p
  | None => g_ (node m' n) = g_ (node m n)
            /\ parent_ (node m' n) = parent_ (node m n)
  end.
Proof.
  destruct c as [n' g h p|n' g h p|n' g h p|]; simpl.
  - intros [= <-]. destruct (decide (n' = n)) as [->|Hn].
    + by rewrite open_node_record.
    + by rewrite open_node_others.
  - intros [= <-]. destruct (decide (n' = n)) as [->|Hn].
    + by rewrite reopen_node_record.
    + unfold node. rewrite (proj1 (reopen_node_frontier m n' g h p)).
      by rewrite (open_node_others m n' g h p n).
  - intros (_ & _ & Hg & Hp & Hother & _)%increase_node_priority_inv.
    destruct (decide (n' = n)) as [->|Hn].
    + by rewrite Hg, Hp.
    + by rewrite Hother.
  - intros Hcall. apply call_close_front in Hcall as [gn Hclose].
    apply close_front_inv in Hclose as (_ & Hgn & Hother & _).
    destruct (decide (n = gn)) as [->|Hn].
    + by rewrite Hgn.
    + by rewrite Hother.
Qed.

End WriterFacts.

(** X8: current_cost(n) and the parent of n are those of the last call made
    on n: after a sequence of calls that returns, the g-cost and the parent
    of a cell are the ones given to the last open_node, reopen_node or
    increase_node_priority call on that cell, and they are unchanged when the
    sequence has no such call (close_front_open_node changes neither). *)
Theorem current_cost_is_last_written {C : Type} `{CostType C}
    (m m' : GridMap C) (cs : list (Call C)) (n : Coord) :
  run m cs = Returns m' ->
  match last_written cs n with
  | Some (g, p) => current_cost m' n = g /\ parent_ (node m' n) = Some p
  | None => current_cost m' n = current_cost m n
            /\ parent_ (node m' n) = parent_ (node m n)
  end.
Proof.
  unfold current_cost.
  revert m. induction cs as [|c cs IH]; intros m; simpl.
  { by intros [= <-]. }
  destruct (call m c) as [m1|] eqn:Hcall; [|done]. simpl.
  intros Hrun. specialize (IH _ Hrun).
  destruct (last_written cs n) as [[g p]|]; [done|].
  destruct IH as [-> ->].
  by apply call_writes.
Qed.

Lemma current_cost_is_last_written_witness :
  exists m' : GridMap Z,
    run sample_map sample_calls = Returns m'
    /\ current_cost m' (0, 1) = 1 /\ parent_ (node m' (0, 1)) = Some (0, 0)
    /\ current_cost m' (0, 0) = 0 /\ parent_ (node m' (0, 0)) = Some (0, 1).
Proof.
  destruct (run sample_map sample_calls) as [m'|] eqn:Hrun;
    [|vm_compute in Hrun; discriminate].
  exists m'. split; [reflexivity|].
  pose proof (current_cost_is_last_written sample_map m' sample_calls (0, 1) Hrun) as H1.
  pose proof (current_cost_is_last_written sample_map m' sample_calls (0, 0) Hrun) as H0.
  split; [apply H1|]. split; [apply H1|]. split; apply H0.
Defined.

(** ** Explored cells *)

Section ExploredFacts.
Context {C : Type} `{CostType C}.

Lemma explored_open_node (m : GridMap C) (S : list Coord) (n : Coord)
    (g h : C) (p : Coord) :
  explored_are m S -> explored_are (open_node m n g h p) (n :: S).
Proof.
  intros (Hol & Hin & Hout). split; [|split].
  - intros c. rewrite open_node_open_list, !elem_of_cons.
    intros [->|Hc]; [by left | right; by apply Hol].
  - intros c Hc. destruct (decide (c = n)) as [->|Hne].
    + rewrite open_node_record. by left.
    + rewrite open_node_others by done. apply Hin.
      by apply elem_of_cons in Hc as [?|?].
  - intros c [Hne Hc]%not_elem_of_cons.
    rewrite open_node_others by done. by apply Hout.
Qed.

Lemma explored_call (m m' : GridMap C) (S : list Coord) (c : Call C) :
  explored_are m S -> call m c = Returns m' ->
  explored_are m' (opened_cells [c] ++ S).
Proof.
  intros HS. destruct c as [n g h p|n g h p|n g h p|]; simpl.
  - intros [= <-]. by apply explored_open_node.
  - intros [= <-]. by apply (explored_open_node m S n g h p).
  - intros (Hn & Hrec & _ & _ & Hother & Hperm & _)%increase_node_priority_inv.
    destruct HS as (Hol & Hin & Hout). split; [|split].
    + intros c. rewrite Hperm. apply Hol.
    + intros c Hc. destruct (decide (c = n)) as [->|Hne].
      * rewrite Hrec. by apply Hin.
      * rewrite Hother by done. by apply Hin.
    + intros c Hc. assert (c ≠ n) by (intros ->; by apply Hc, Hol).
      rewrite Hother by done. by apply Hout.
  - intros Hcall. apply call_close_front in Hcall as [gn Hclose].
    apply close_front_inv in Hclose as (Hgn & Hrec & Hother & Hperm & _).
    destruct HS as (Hol & Hin & Hout). split; [|split].
    + intros c Hc. apply Hol. rewrite Hperm. by right.
    + intros c Hc. destruct (decide (c = gn)) as [->|Hne].
      * rewrite Hrec. by right.
      * rewrite Hother by done. by apply Hin.
    + intros c Hc. assert (c ≠ gn) by (intros ->; by apply Hc, Hol).
      rewrite Hother by done. by apply Hout.
Qed.

Lemma explored_run (cs : list (Call C)) (m m' : GridMap C) (S : list Coord) :
  explored_are m S -> run m cs = Returns m' ->
  exists S', explored_are m' S' /\ forall c, c ∈ S' <-> c ∈ opened_cells cs \/ c ∈ S.
Proof.
  revert m S. induction cs as [|c cs IH]; intros m S HS; simpl.
  { intros [= <-]. exists S. split; [done|]. intros c.
    rewrite elem_of_nil. tauto. }
  destruct (call m c) as [m1|] eqn:Hcall; [|done]. simpl.
  intros Hrun.
  destruct (IH _ _ (explored_call _ _ _ _ HS Hcall) Hrun) as (S' & HS' & Hiff).
  exists S'. split; [done|]. intros c'. rewrite Hiff, elem_of_app.
  destruct c; simpl; rewrite ?elem_of_cons, ?elem_of_nil; tauto.
Qed.

End ExploredFacts.

(** X9: on a map that was fresh before a sequence of calls that returned,
    node_unexplored(n) is true exactly for the cells n on which the sequence
    made no open_node or reopen_node call; the other cells are open or
    closed, and node_open(n) is false for a cell that was never opened. *)
Theorem node_unexplored_iff_never_opened {C : Type} `{CostType C}
    (vm : VertexMatrix C) (diagonal : bool) (cs : list (Call C)) (m : GridMap C)
    (n : Coord) :
  run (fresh_map vm diagonal) cs = Returns m ->
  (node_unexplored m n = true <-> n ∉ opened_cells cs)
  /\ (n ∈ opened_cells cs ->
      state_ (node m n) = NodeState.open \/ state_ (node m n) = NodeState.closed)
  /\ (node_open m n = true -> n ∈ opened_cells cs).
Proof.
  intros Hrun.
  assert (Hfresh : explored_are (fresh_map vm diagonal) []).
  { split; [|split]; [intros c Hc; by apply elem_of_nil in Hc
                     |intros c Hc; by apply elem_of_nil in Hc | done]. }
  destruct (explored_run cs _ _ _ Hfresh Hrun) as (S & (_ & Hin & Hout) & Hiff).
  assert (HS : n ∈ S <-> n ∈ opened_cells cs).
  { rewrite Hiff, elem_of_nil. tauto. }
  unfold node_unexplored, node_open. rewrite !bool_decide_eq_true.
  split; [|split].
  - split.
    + intros Hst Hn. apply HS in Hn. destruct (Hin n Hn); congruence.
    + intros Hn. apply Hout. by rewrite HS.
  - intros Hn. apply Hin. by apply HS.
  - intros Hst. destruct (decide (n ∈ S)) as [Hn|Hn]; [by apply HS|].
    rewrite (Hout n Hn) in Hst. done.
Qed.

Lemma node_unexplored_iff_never_opened_witness :
  exists m : GridMap Z,
    run (fresh_map sample_matrix true) sample_calls = Returns m
    /\ node_unexplored m (5, 5) = true
    /\ (state_ (node m (1, 1)) = NodeState.open
        \/ state_ (node m (1, 1)) = NodeState.closed).
Proof.
  destruct (run (fresh_map sample_matrix true) sample_calls) as [m|] eqn:Hrun;
    [|vm_compute in Hrun; discriminate].
  exists m. split; [reflexivity|].
  destruct (node_unexplored_iff_never_opened sample_matrix true sample_calls m
              (5, 5) Hrun) as (Hun & _ & _).
  destruct (node_unexplored_iff_never_opened sample_matrix true sample_calls m
              (1, 1) Hrun) as (_ & Hop & _).
  split.
  - apply Hun. intros Hin%list_elem_of_In. vm_compute in Hin.
    intuition discriminate.
  - apply Hop. apply list_elem_of_In. vm_compute. auto 12.
Defined.

(** ** Further facts on path extraction *)

Section PathMore.
Context {C : Type} `{CostType C}.

Lemma parent_chain_det (na : GridNodeArray C) (n : Coord) (l l' : list Coord)
    (s s' : Coord) :
  parent_chain na n l s -> parent_chain na n l' s' -> l = l' /\ s = s'.
Proof.
  intros Hc. revert l' s'.
  induction Hc as [s Hs | p q l s Hp Hq Hchain IH]; intros l' s' Hc'.
  - inversion Hc' as [? Hs' | ? q' ? ? Hp' Hq' ?]; subst; [done|congruence].
  - inversion Hc' as [? Hs' | ? q' l'' ? Hp' Hq' Hchain']; subst; [congruence|].
    assert (q' = q) as -> by congruence.
    destruct (IH _ _ Hchain') as [-> ->]. done.
Qed.

Lemma parent_chain_from (na : GridNodeArray C) (n : Coord) (l : list Coord)
    (s c : Coord) :
  parent_chain na n l s -> c ∈ l ->
  exists l1 l2, l = l1 ++ c :: l2 /\ parent_chain na c (c :: l2) s.
Proof.
  induction 1 as [s Hs | p q l s Hp Hq Hchain IH]; intros Hc.
  - by apply elem_of_nil in Hc.
  - destruct (decide (c = p)) as [->|Hne].
    + exists [], l. split; [done|]. by eapply chain_link.
    + apply elem_of_cons in Hc as [?|Hc]; [done|].
      destruct (IH Hc) as (l1 & l2 & -> & Hc2).
      by exists (p :: l1), l2.
Qed.

Lemma parent_chain_NoDup (na : GridNodeArray C) (n : Coord) (l : list Coord)
    (s : Coord) :
  parent_chain na n l s -> NoDup l.
Proof.
  induction 1 as [s Hs | p q l s Hp Hq Hchain IH]; [constructor|].
  constructor; [|done]. intros Hin.
  assert (Hwhole : parent_chain na p (p :: l) s) by (by eapply chain_link).
  destruct (parent_chain_from _ _ _ _ _ Hwhole (list_elem_of_further _ _ _ Hin))
    as (l1 & l2 & Heq & Hsub).
  destruct (parent_chain_from _ _ _ _ _ Hchain Hin) as (l1' & l2' & -> & Hsub').
  destruct (parent_chain_det _ _ _ _ _ _ Hwhole Hsub') as [Hl _].
  apply (f_equal length) in Hl. rewrite !length_cons, length_app, length_cons in Hl.
  lia.
Qed.

Lemma get_path_loop_returns (na : GridNodeArray C) (fuel : nat) :
  forall (na' na'' : GridNodeArray C) (n s : Coord) (path path' : list Coord),
    (forall c, parent_ (na' c) = parent_ (na c)) ->
    get_path_loop fuel na' n path = Some (Returns (na'', s, path')) ->
    exists l, path' = path ++ l /\ parent_chain na n l s
              /\ (length l <= fuel)%nat.
Proof.
  induction fuel as [|fuel IH]; intros na' na'' n s path path' Hpar; simpl;
    rewrite (Hpar n); destruct (parent_ (na n)) as [q|] eqn:Hq; try done;
    destruct (decide (q ≠ n)) as [Hne|Heq]; try done.
  - intros [= <- <- <-]. exists []. rewrite app_nil_r.
    split; [done|]. split; [|done]. apply chain_end.
    rewrite Hq. f_equal. by apply dec_stable.
  - intros Hloop. apply IH in Hloop as (l & -> & Hchain & Hlen).
    + exists (n :: l). rewrite <- app_assoc. split; [done|].
      split; [by eapply chain_link | simpl; lia].
    + intros c. rewrite <- Hpar. unfold update_node.
      by destruct (decide (c = n)) as [->|].
  - intros [= <- <- <-]. exists []. rewrite app_nil_r.
    split; [done|]. split; [|simpl; lia]. apply chain_end.
    rewrite Hq. f_equal. by apply dec_stable.
Qed.

Lemma get_path_loop_no_root (na : GridNodeArray C) (P : Coord -> Prop) :
  (forall c, P c -> exists q, parent_ (na c) = Some q /\ q ≠ c /\ P q) ->
  forall (fuel : nat) (na' : GridNodeArray C) (n : Coord) (path : list Coord),
    (forall c, parent_ (na' c) = parent_ (na c)) -> P n ->
    get_path_loop fuel na' n path = None.
Proof.
  intros Hclosed fuel.
  induction fuel as [|fuel IH]; intros na' n path Hpar Hn; simpl;
    rewrite (Hpar n); destruct (Hclosed n Hn) as (q & -> & Hq & HPq);
    rewrite decide_True by done; [done|].
  apply IH; [|done].
  intros c. rewrite <- Hpar. unfold update_node.
  by destruct (decide (c = n)) as [->|].
Qed.

End PathMore.

(** X10: whenever get_path(n) returns, the returned path is a parent chain
    from n that ends before a cell that is its own parent, it holds no cell
    twice and not the cell that is its own parent, and that cell is the one
    marked start. *)
Theorem get_path_returns_a_chain {C : Type} `{CostType C}
    (m m' : GridMap C) (n : Coord) (l : list Coord) (fuel : nat) :
  get_path fuel m n = Some (Returns (m', l)) ->
  exists s : Coord,
    parent_chain (node_array_ m) n l s
    /\ NoDup l
    /\ (s ∉ l)
    /\ (length l <= fuel)%nat
    /\ state_ (node m' s) = NodeState.start.
Proof.
  unfold get_path.
  destruct (get_path_loop fuel (node_array_ m) n []) as [[[[na s] path]|]|] eqn:Hloop;
    [|done..].
  intros [= <- <-].
  apply (get_path_loop_returns (node_array_ m)) in Hloop as (l & Hl & Hchain & Hlen);
    [|done].
  simpl in Hl. subst path. exists s.
  split; [done|]. split; [by eapply parent_chain_NoDup|].
  split; [by eapply parent_chain_end_outside|]. split; [done|].
  unfold node. simpl. by rewrite update_node_eq.
Qed.

Lemma get_path_returns_a_chain_witness :
  exists s : Coord,
    parent_chain (node_array_ sample_search_far) (3, 3) [(3, 3); (1, 1)] s
    /\ NoDup [((3, 3) : Coord); (1, 1)].
Proof.
  destruct (get_path 2 sample_search_far (3, 3)) as [[[m' l]|]|] eqn:Hpath;
    [|vm_compute in Hpath; discriminate..].
  assert (l = [(3, 3); (1, 1)]) as ->.
  { vm_compute in Hpath. by injection Hpath as _ <-. }
  destruct (get_path_returns_a_chain sample_search_far m' (3, 3) _ 2 Hpath)
    as (s & Hchain & Hnd & _).
  exists s. split; [exact Hchain | exact Hnd].
Defined.

(** X11: get_path(n) does not terminate when the parent links from n never
    reach a cell that is its own parent: if n lies in a set of cells each of
    which has a parent in the set other than itself (a cycle of parents),
    the loop of get_path is still running after any number of steps. *)
Theorem get_path_loops_on_a_cycle {C : Type} `{CostType C}
    (m : GridMap C) (n : Coord) (P : Coord -> Prop) (fuel : nat) :
  P n ->
  (forall c, P c -> exists q, parent_ (node m c) = Some q /\ q ≠ c /\ P q) ->
  get_path fuel m n = None.
Proof.
  intros Hn Hclosed. unfold get_path.
  by rewrite (get_path_loop_no_root (node_array_ m) P Hclosed fuel).
Qed.

Lemma get_path_loops_on_a_cycle_witness :
  get_path 1000 sample_cycle (1, 0) = None.
Proof.
  apply (get_path_loops_on_a_cycle sample_cycle (1, 0)
           (fun c => c = (1, 0) \/ c = (0, 1))).
  - by left.
  - intros c [-> | ->].
    + exists (0, 1). split; [reflexivity|]. split; [done | by right].
    + exists (1, 0). split; [reflexivity|]. split; [done | by left].
Defined.

(** ** The heuristics of GridMap<int> *)

Lemma small_coord_within (c : Coord) : small_coord c -> coord_within (2 ^ 29) c.
Proof. unfold small_coord, coord_within. lia. Qed.

Lemma small_coord_step (n : Coord) (ox oy : Z) :
  small_coord n -> -1 <= ox <= 1 -> -1 <= oy <= 1 ->
  coord_within (2 ^ 29) (x n + ox, y n + oy).
Proof. unfold small_coord, coord_within, x, y. simpl. lia. Qed.

Lemma manhattan_int (a b : Coord) :
  coord_within (2 ^ 29) a -> coord_within (2 ^ 29) b ->
  manhattan_distance (C := Z) a b = Z.abs (x b - x a) + Z.abs (y b - y a).
Proof.
  intros [Hxa Hya] [Hxb Hyb]. unfold manhattan_distance. simpl.
  rewrite !int_sub_exact by lia. unfold int_add. apply wrap_in_range. lia.
Qed.

Lemma int_weights_are_one :
  kStraightEdgeWeight (C := Z) = 1 /\ kDiagonalEdgeWeight (C := Z) = 1.
Proof. split; vm_compute; reflexivity. Qed.

Lemma diagonal_int (a b : Coord) :
  coord_within (2 ^ 29) a -> coord_within (2 ^ 29) b ->
  diagonal_distance (C := Z) a b
  = Z.max (Z.abs (x b - x a)) (Z.abs (y b - y a)).
Proof.
  intros [Hxa Hya] [Hxb Hyb]. unfold diagonal_distance.
  destruct int_weights_are_one as [-> ->]. simpl.
  rewrite !int_sub_exact by lia.
  unfold int_add, int_mul, int_sub.
  rewrite (wrap_in_range (Z.max _ _ - Z.min _ _)) by lia.
  rewrite !Z.mul_1_r.
  rewrite (wrap_in_range (Z.min _ _)) by lia.
  rewrite (wrap_in_range (Z.max _ _ - Z.min _ _)) by lia.
  rewrite wrap_in_range by lia. lia.
Qed.

Lemma neighbor_offsets (n c : Coord) :
  small_coord n ->
  c ∈ coord_4_neighbors n \/ c ∈ coord_8_neighbors n ->
  exists ox oy, c = (x n + ox, y n + oy)
    /\ -1 <= ox <= 1 /\ -1 <= oy <= 1 /\ (ox ≠ 0 \/ oy ≠ 0)
    /\ (c ∈ coord_4_neighbors n -> ox = 0 \/ oy = 0).
Proof.
  intros [Hx Hy]%small_coord_within Hin.
  assert (Hexact : forall ox oy, -1 <= ox <= 1 -> -1 <= oy <= 1 ->
            (int_add n.1 ox, int_add n.2 oy) = (x n + ox, y n + oy)).
  { intros ox oy Hox Hoy. unfold int_add, x, y in *.
    by rewrite !wrap_in_range by lia. }
  destruct Hin as [Hin|Hin].
  - unfold coord_4_neighbors, offset_neighbors in Hin. simpl in Hin.
    rewrite !elem_of_cons, elem_of_nil in Hin.
    repeat match goal with
           | Hor : _ \/ _ |- _ => destruct Hor as [Hor | Hor]
           | Hf : False |- _ => destruct Hf
           | Heq : c = (int_add _ ?ox, int_add _ ?oy) |- _ =>
               exists ox, oy; rewrite Heq, Hexact by lia;
               (split; [done|]); lia
           end.
  - destruct (neighbor_is_step n c (or_intror Hin)) as (ox & oy & -> & Hox & Hoy & Hnz).
    exists ox, oy. rewrite Hexact by done.
    split; [done|]. split; [done|]. split; [done|]. split; [done|].
    intros H4. unfold coord_4_neighbors, offset_neighbors in H4. simpl in H4.
    rewrite <- Hexact in H4 by done.
    rewrite !elem_of_cons, elem_of_nil in H4.
    repeat match goal with
           | Hor : _ \/ _ |- _ => destruct Hor as [Hor | Hor]
           | Hf : False |- _ => destruct Hf
           | Heq : (int_add n.1 _, int_add n.2 _) = _ |- _ =>
               injection Heq as Hex Hey;
               apply int_add_inj in Hex; [|lia..];
               apply int_add_inj in Hey; [|lia..]
           end; lia.
Qed.

(** X12: for GridMap<int> and coordinates far from the bounds of int,
    manhattan_distance is a metric: it is symmetric, zero exactly between a
    cell and itself, and obeys the triangle inequality. *)
Theorem manhattan_distance_is_a_metric (a b c : Coord) :
  small_coord a -> small_coord b -> small_coord c ->
  manhattan_distance (C := Z) a b = manhattan_distance (C := Z) b a
  /\ (manhattan_distance (C := Z) a b = 0 <-> a = b)
  /\ manhattan_distance (C := Z) a c
     <= manhattan_distance (C := Z) a b + manhattan_distance (C := Z) b c.
Proof.
  intros Ha%small_coord_within Hb%small_coord_within Hc%small_coord_within.
  rewrite !manhattan_int by done.
  split; [lia|]. split; [|lia].
  destruct a as [xa ya], b as [xb yb]. unfold x, y. simpl.
  split; [intros Hz; f_equal; lia | intros [= -> ->]; lia].
Qed.

Lemma manhattan_distance_is_a_metric_witness :
  manhattan_distance (C := Z) (0, 0) (2, 2)
  <= manhattan_distance (C := Z) (0, 0) (5, 1)
     + manhattan_distance (C := Z) (5, 1) (2, 2).
Proof.
  assert (H0 : small_coord (0, 0)) by (unfold small_coord, coord_within, x, y; simpl; lia).
  assert (H1 : small_coord (5, 1)) by (unfold small_coord, coord_within, x, y; simpl; lia).
  assert (H2 : small_coord (2, 2)) by (unfold small_coord, coord_within, x, y; simpl; lia).
  apply (manhattan_distance_is_a_metric (0, 0) (5, 1) (2, 2) H0 H1 H2).
Defined.

(** X13: for GridMap<int> both heuristics are consistent with the step
    weights: every step costs 1, a step to one of the 4 neighbours lowers
    manhattan_distance to any goal by at most 1, and a step to one of the 8
    neighbours lowers diagonal_distance (the greater of |dx| and |dy| here)
    by at most 1, for coordinates far from the bounds of int. *)
Theorem heuristics_consistent_for_int (n c goal : Coord) :
  small_coord n -> small_coord goal ->
  (c ∈ coord_4_neighbors n ->
     edge_weight (C := Z) n c = Returns 1
     /\ manhattan_distance (C := Z) n goal
        <= 1 + manhattan_distance (C := Z) c goal)
  /\ (c ∈ coord_8_neighbors n ->
        edge_weight (C := Z) n c = Returns 1
        /\ diagonal_distance (C := Z) n goal
           = Z.max (Z.abs (x goal - x n)) (Z.abs (y goal - y n))
        /\ diagonal_distance (C := Z) n goal
           <= 1 + diagonal_distance (C := Z) c goal).
Proof.
  intros Hn Hg.
  assert (Hw : forall c', c' ∈ coord_4_neighbors n \/ c' ∈ coord_8_neighbors n ->
                 edge_weight (C := Z) n c' = Returns 1).
  { intros c' Hin.
    destruct (neighbor_is_step n c' Hin) as (ox & oy & -> & Hox & Hoy & Hnz).
    unfold edge_weight. rewrite edge_span_step by done.
    destruct int_weights_are_one as [-> ->].
    destruct (Z.eqb_spec (Z.abs oy + Z.abs ox) 2); [done|].
    rewrite (proj2 (Z.eqb_eq _ 1)) by lia. done. }
  split.
  - intros Hin. split; [apply Hw; by left|].
    destruct (neighbor_offsets n c Hn (or_introl Hin))
      as (ox & oy & Hc' & Hox & Hoy & _ & H4).
    specialize (H4 Hin). subst c.
    pose proof (small_coord_step n ox oy Hn Hox Hoy) as Hc.
    rewrite !manhattan_int by (done || by apply small_coord_within).
    unfold x, y. simpl. lia.
  - intros Hin. split; [apply Hw; by right|].
    destruct (neighbor_offsets n c Hn (or_intror Hin))
      as (ox & oy & -> & Hox & Hoy & _ & _).
    pose proof (small_coord_step n ox oy Hn Hox Hoy) as Hc.
    rewrite !diagonal_int by (done || by apply small_coord_within).
    split; [done|].
    unfold x, y. simpl. lia.
Qed.

Lemma heuristics_consistent_for_int_witness :
  diagonal_distance (C := Z) (1, 1) (7, 3)
  <= 1 + diagonal_distance (C := Z) (2, 2) (7, 3).
Proof.
  assert (Hn : small_coord (1, 1)) by (unfold small_coord, coord_within, x, y; simpl; lia).
  assert (Hg : small_coord (7, 3)) by (unfold small_coord, coord_within, x, y; simpl; lia).
  assert (Hin : ((2, 2) : Coord) ∈ coord_8_neighbors (1, 1)).
  { apply list_elem_of_In. vm_compute. auto 12. }
  destruct (heuristics_consistent_for_int (1, 1) (2, 2) (7, 3) Hn Hg) as [_ H8].
  apply (H8 Hin).
Defined.

(** X14: in GridMap<int> a diagonal step costs what a straight step costs:
    when the terrain weights are ints, the cost of every edge that edges(n)
    returns is the terrain weight of the target cell. *)
Theorem int_edges_cost_the_terrain_weight
    (m : GridMap Z) (n : Coord) (es : list (Edge Z)) :
  Forall in_int (vm_data (vertex_matrix_ m)) ->
  edges m n = Returns es ->
  Forall (fun e => weight (vertex_matrix_ m) (edge_to e) = Returns (edge_cost_ e)) es.
Proof.
  intros Hints. rewrite edges_as_omap. intros [= <-].
  apply Forall_forall. intros e (o & Ho & He)%list_elem_of_omap.
  unfold edge_along in He. cbv zeta in He.
  destruct (weight (vertex_matrix_ m) (step_to n o)) as [w|] eqn:Hw; [|done].
  destruct (is_passable (vertex_matrix_ m) (step_to n o)); [|done].
  injection He as <-. simpl. rewrite Hw. f_equal.
  assert (Hin : in_int w).
  { unfold weight in Hw. destruct (in_grid _ _); [|done].
    destruct (vm_data _ !! _) as [w'|] eqn:Hlook; [|done].
    injection Hw as <-. rewrite Forall_forall in Hints.
    by eapply Hints, list_elem_of_lookup_2. }
  unfold step_weight. destruct int_weights_are_one as [-> ->].
  destruct (decide _); unfold int_mul; rewrite Z.mul_1_r;
    by rewrite wrap_in_range.
Qed.

Lemma int_edges_cost_the_terrain_weight_witness :
  Forall (fun e => weight (mkVertexMatrix 2 2 [1; 2; 3; 4]) (edge_to e)
                   = Returns (edge_cost_ e))
    [mkEdge (0, 0) (1, 0) 2; mkEdge (0, 0) (0, 1) 3; mkEdge (0, 0) (1, 1) 4].
Proof.
  apply (int_edges_cost_the_terrain_weight
           (fresh_map (mkVertexMatrix 2 2 [1; 2; 3; 4]) true) (0, 0)).
  - repeat constructor; unfold in_int; lia.
  - vm_compute. reflexivity.
Defined.

(** ** The heuristics on single steps *)

Lemma distances_of_a_step {C : Type} `{CostType C} (n : Coord) (o : Z * Z) :
  -1 <= o.1 <= 1 -> -1 <= o.2 <= 1 ->
  manhattan_distance n (step_to n o) = cost_of_int (Z.abs o.1 + Z.abs o.2)
  /\ diagonal_distance n (step_to n o)
     = cost_add
         (cost_mul (cost_of_int (Z.min (Z.abs o.1) (Z.abs o.2))) kDiagonalEdgeWeight)
         (cost_mul (cost_of_int (Z.max (Z.abs o.1) (Z.abs o.2)
                                 - Z.min (Z.abs o.1) (Z.abs o.2)))
                   kStraightEdgeWeight).
Proof.
  intros Hx Hy. unfold manhattan_distance, diagonal_distance, step_to.
  unfold x at 1 3. unfold y at 1 3. simpl.
  rewrite !int_abs_step by done.
  unfold int_add at 1. rewrite wrap_in_range by lia.
  unfold int_sub. rewrite wrap_in_range by lia. done.
Qed.

(** X15: both heuristics are exact on single steps, for GridMap<double> and
    for GridMap<int>: diagonal_distance between a cell and each of its 8
    neighbours, and manhattan_distance between a cell and each of its 4
    neighbours, is the step weight that edge_weight returns for the move. *)
Theorem heuristics_exact_on_steps (n c : Coord) :
  (c ∈ coord_8_neighbors n ->
     edge_weight (C := float) n c = Returns (diagonal_distance (C := float) n c)
     /\ edge_weight (C := Z) n c = Returns (diagonal_distance (C := Z) n c))
  /\ (c ∈ coord_4_neighbors n ->
        edge_weight (C := float) n c = Returns (manhattan_distance (C := float) n c)
        /\ edge_weight (C := Z) n c = Returns (manhattan_distance (C := Z) n c)).
Proof.
  rewrite (coord_neighbors_steps true n), (coord_neighbors_steps false n).
  split; intros (o & -> & Ho)%list_elem_of_fmap.
  - rewrite !edge_weight_step by done.
    destruct (neighbor_steps_small true o Ho) as (Hx & Hy & _).
    rewrite (proj2 (distances_of_a_step (C := float) n o Hx Hy)).
    rewrite (proj2 (distances_of_a_step (C := Z) n o Hx Hy)).
    simpl in Ho. rewrite !elem_of_cons, elem_of_nil in Ho.
    repeat match goal with
           | Hor : _ \/ _ |- _ => destruct Hor as [Hor | Hor]
           | Hf : False |- _ => destruct Hf
           end; subst o; split; vm_compute; reflexivity.
  - rewrite !edge_weight_step by (by apply neighbor_steps_4_8).
    destruct (neighbor_steps_small false o Ho) as (Hx & Hy & _).
    rewrite (proj1 (distances_of_a_step (C := float) n o Hx Hy)).
    rewrite (proj1 (distances_of_a_step (C := Z) n o Hx Hy)).
    simpl in Ho. rewrite !elem_of_cons, elem_of_nil in Ho.
    repeat match goal with
           | Hor : _ \/ _ |- _ => destruct Hor as [Hor | Hor]
           | Hf : False |- _ => destruct Hf
           end; subst o; split; vm_compute; reflexivity.
Qed.

(** ** Opening the cheapest cell *)

(** X16: a cell that is opened with an f-cost strictly below the f-costs of
    all cells of the open list is the next cell that close_front_open_node
    closes and returns (for a cost type whose comparisons form a total order,
    on a map whose open list and node states agree). *)
Theorem cheapest_opened_is_closed_next {C : Type} `{CostType C} `{!TotalCost C}
    (m : GridMap C) (n : Coord) (g h : C) (p : Coord) :
  frontier_consistent m -> ¬ is_open m n ->
  (forall c, c ∈ open_list_ m ->
     cost_ltb (cost_add g h) (f_ (node m c)) = true) ->
  exists m' : GridMap C,
    close_front_open_node (open_node m n g h p) = Returns (m', n)
    /\ state_ (node m' n) = NodeState.closed
    /\ open_list_ m' ≡ₚ open_list_ m.
Proof.
  intros Hm Hn Hlow.
  pose proof (frontier_consistent_insert m n g h p Hm Hn) as Hm1.
  assert (Hnin : n ∉ open_list_ m).
  { intros Hin. by apply Hn, Hm. }
  assert (Havail : open_node_available (open_node m n g h p) = true).
  { unfold open_node_available. rewrite negb_true_iff, bool_decide_eq_false.
    intros Hnil. pose proof (open_node_open_list m n g h p) as Hperm.
    rewrite Hnil in Hperm. by apply Permutation_nil_cons in Hperm. }
  destruct (close_front_returns _ Hm1 Havail)
    as (m' & c & Hclose & [Hc Hmin] & Hperm & Hclosed & _ & _).
  rewrite open_node_open_list in Hc, Hperm.
  assert (c = n) as ->.
  { apply elem_of_cons in Hc as [?|Hc]; [done|]. exfalso.
    assert (c ≠ n) by (by intros ->).
    specialize (Hmin n). rewrite open_node_open_list in Hmin.
    specialize (Hmin (list_elem_of_here _ _)).
    unfold priority_of in Hmin. fold (node (open_node m n g h p) c) in Hmin.
    fold (node (open_node m n g h p) n) in Hmin.
    rewrite open_node_record, open_node_others in Hmin by done. simpl in Hmin.
    rewrite cost_leb_ltb, (Hlow c Hc) in Hmin. done. }
  exists m'. split; [done|]. split; [done|].
  by apply Permutation_cons_inv in Hperm.
Qed.

Lemma cheapest_opened_is_closed_next_witness :
  exists m' : GridMap Z,
    close_front_open_node (open_node (open_node sample_map (0, 0) 0 5 (0, 0))
                             (1, 0) 1 2 (0, 0))
    = Returns (m', (1, 0)).
Proof.
  assert (Hm : frontier_consistent (open_node sample_map (0, 0) 0 5 (0, 0))).
  { apply frontier_consistent_insert; [apply frontier_consistent_fresh | done]. }
  assert (Hn : ¬ is_open (open_node sample_map (0, 0) 0 5 (0, 0)) (1, 0)) by done.
  assert (Hlow : forall c,
             c ∈ open_list_ (open_node sample_map (0, 0) 0 5 (0, 0)) ->
             cost_ltb (cost_add 1 2)
               (f_ (node (open_node sample_map (0, 0) 0 5 (0, 0)) c)) = true).
  { intros c Hc%list_elem_of_In. vm_compute in Hc.
    destruct Hc as [<-|[]]. vm_compute. reflexivity. }
  destruct (cheapest_opened_is_closed_next _ (1, 0) 1 2 (0, 0) Hm Hn Hlow)
    as (m' & Hclose & _).
  by exists m'.
Defined.
